(** * Yeiliens-Brain: the edit history of the photo editor

    A shallow embedding of the history handling of [App.tsx] (the
    [history] / [historyIndex] pair of React state cells and the handlers
    that write them) and of [generateVariations] of
    [services/geminiService.ts], with the properties of the edit-history
    store stated and proved over it.

    Conventions of the embedding:
    - a JS [number] that only ever holds an integer is a [Z];
    - a JS string is a [string] whose characters are one-byte code units;
    - [T | null] and [T | undefined] are [option T];
    - a React state setter [setX v] is an [Update], a function on the
      component state; a handler is a function of the render it closes
      over that yields the [Update] it performs;
    - a thrown value is a [Thrown], a settled promise a [Settled]. *)

From Stdlib Require Import ZArith Ascii.
From stdpp Require Import base strings list gmap pretty.

(** ** JavaScript runtime helpers *)

Module Js.

(** What a [throw] carries: an [Error] (or a subclass) with its message,
    or any other value. *)
Inductive Thrown : Type :=
| ErrorObj (message : string)
| NonError.

(** Outcome of an awaited promise, and of a call that may throw. *)
Inductive Settled (A : Type) : Type :=
| fulfilled (value : A)
| rejected (reason : Thrown).
Global Arguments fulfilled {A} value.
Global Arguments rejected {A} reason.

Definition is_fulfilled {A} (r : Settled A) : bool :=
  match r with fulfilled _ => true | rejected _ => false end.

Definition is_rejected {A} (r : Settled A) : bool :=
  match r with fulfilled _ => false | rejected _ => true end.

(** Truthiness of a string: every string but the empty one. *)
Definition truthy (s : string) : bool :=
  match s with EmptyString => false | String _ _ => true end.

(** [o || d] for an optional string. *)
Definition or_else (o : option string) (d : string) : string :=
  match o with
  | Some s => if truthy s then s else d
  | None => d
  end.

Definition truthy_opt (o : option string) : bool :=
  match o with Some s => truthy s | None => false end.

(** An optional string interpolated in a template literal. *)
Definition interpolate (o : option string) : string :=
  match o with Some s => s | None => "undefined" end.

(** [arr[i] ?? null] for an integer index. *)
Definition index {A} (arr : list A) (i : Z) : option A :=
  if (i <? 0)%Z then None else arr !! Z.to_nat i.

(** [arr.slice(start, end)] for integer arguments: a negative argument
    counts from the end, and both are clamped to the array. *)
Definition clamp (len i : Z) : Z :=
  if (i <? 0)%Z then Z.max (len + i) 0 else Z.min i len.

Definition slice {A} (arr : list A) (start end_ : Z) : list A :=
  let len := Z.of_nat (length arr) in
  let k := clamp len start in
  let final := clamp len end_ in
  take (Z.to_nat (Z.max (final - k) 0)) (drop (Z.to_nat k) arr).

(** [s.split(',')]. *)
Fixpoint split_comma (s : string) : list string :=
  match s with
  | EmptyString => [EmptyString]
  | String c s' =>
      if Ascii.eqb c "," then EmptyString :: split_comma s'
      else match split_comma s' with
           | [] => [String c EmptyString]
           | w :: ws => String c w :: ws
           end
  end.

(** Line terminators, which [.] of a regular expression does not match. *)
Definition is_line_terminator (c : ascii) : bool :=
  Ascii.eqb c "010" || Ascii.eqb c "013".

(** The lazy group of [/:(.*?);/] once the colon is consumed: the text up
    to the first semicolon, unless a line terminator or the end of the
    string comes first. *)
Fixpoint lazy_until_semicolon (s : string) : option string :=
  match s with
  | EmptyString => None
  | String c s' =>
      if Ascii.eqb c ";" then Some EmptyString
      else if is_line_terminator c then None
      else String c <$> lazy_until_semicolon s'
  end.

(** [s.match(/:(.*?);/)]: the group of the leftmost match, if any. *)
Fixpoint match_mime (s : string) : option string :=
  match s with
  | EmptyString => None
  | String c s' =>
      if Ascii.eqb c ":" then
        match lazy_until_semicolon s' with
        | Some g => Some g
        | None => match_mime s'
        end
      else match_mime s'
  end.

(** White space as [String.prototype.trim] sees it, for one-byte code
    units: TAB, LF, VT, FF, CR, SPACE and NBSP. *)
Definition is_white_space (c : ascii) : bool :=
  match c with
  | "009" | "010" | "011" | "012" | "013" | " " | "160" => true
  | _ => false
  end%char.

Fixpoint trimStart (s : string) : string :=
  match s with
  | EmptyString => EmptyString
  | String c s' => if is_white_space c then trimStart s' else s
  end.

Definition trim (s : string) : string :=
  String.rev (trimStart (String.rev (trimStart s))).

(** [s.charCodeAt(n)] for every [n]. *)
Definition charCodes (s : string) : list Z :=
  (λ c, Z.of_N (N_of_ascii c)) <$> String.list_ascii_of_string s.

(** [n.toString()] and [${n}] for an integer. *)
Definition toString (n : Z) : string := pretty n.

End Js.

(** ** services/geminiService.ts *)

Module GeminiService.
Import Js.

(** The parts of the SDK's response that the service reads. [parts] stands
    for [content?.parts], absent when either link is. *)
Record InlineData : Type := mkInlineData {
  mimeType : option string;
  data : option string }.

Record Part : Type := mkPart {
  inlineData : option InlineData }.

Record Candidate : Type := mkCandidate {
  parts : option (list Part);
  finishReason : option string }.

Record PromptFeedback : Type := mkPromptFeedback {
  blockReason : option string;
  blockReasonMessage : option string }.

Record GenerateContentResponse : Type := mkResponse {
  promptFeedback : option PromptFeedback;
  candidates : option (list Candidate);
  text : option string }.

Definition dquote : string := String "034"%char EmptyString.

(** [fileToPart]: the data URL read from the file (or the reader's error
    event) is cut at the comma and its MIME type extracted. *)
Definition fileToPart (readAsDataURL : Settled string) : Settled Part :=
  match readAsDataURL with
  | rejected ev => rejected ev
  | fulfilled dataUrl =>
      match split_comma dataUrl with
      | arr0 :: arr1 :: _ =>
          match match_mime arr0 with
          | Some m =>
              if truthy m
              then fulfilled (mkPart (Some (mkInlineData (Some m) (Some arr1))))
              else rejected (ErrorObj "Could not parse MIME type from data URL")
          | None => rejected (ErrorObj "Could not parse MIME type from data URL")
          end
      | _ => rejected (ErrorObj "Invalid data URL")
      end
  end.

Definition has_inlineData (p : Part) : bool :=
  match inlineData p with Some _ => true | None => false end.

Definition handleApiResponse (response : GenerateContentResponse)
    (context : string) : Settled string :=
  let reason : option string := promptFeedback response ≫= blockReason in
  if truthy_opt reason then
    (* 1. the prompt was blocked *)
    let message : option string :=
      promptFeedback response ≫= blockReasonMessage in
    rejected (ErrorObj ("Request was blocked. Reason: " +:+ interpolate reason
      +:+ ". " +:+ or_else message EmptyString))
  else
    (* 2. the first part of the first candidate that carries an image *)
    let candidate0 : option Candidate := candidates response ≫= head in
    let imagePartFromResponse : option Part :=
      (candidate0 ≫= parts) ≫= List.find has_inlineData in
    match imagePartFromResponse ≫= inlineData with
    | Some image =>
        fulfilled ("data:" +:+ interpolate (mimeType image) +:+ ";base64,"
          +:+ interpolate (data image))
    | None =>
        (* 3. no image: why *)
        let finish : option string := candidate0 ≫= finishReason in
        if truthy_opt finish && negb (bool_decide (finish = Some "STOP")) then
          rejected (ErrorObj ("Image generation for " +:+ context
            +:+ " stopped unexpectedly. Reason: " +:+ interpolate finish
            +:+ ". This often relates to safety settings."))
        else
          let textFeedback : option string := trim <$> text response in
          rejected (ErrorObj ("The AI model did not return an image for the "
            +:+ context +:+ ". " +:+
            (if truthy_opt textFeedback
             then "The model responded with text: " +:+ dquote
                    +:+ interpolate textFeedback +:+ dquote
             else "This can happen due to safety filters or if the request is too complex. "
                  +:+ "Please try rephrasing your prompt to be more direct.")))
    end.

(** One of the three requests of [generateVariations]: the reply of
    [ai.models.generateContent] (or its rejection) through
    [handleApiResponse]. *)
Definition generateSingleVariation
    (reply : Settled GenerateContentResponse) : Settled string :=
  match reply with
  | rejected e => rejected e
  | fulfilled response => handleApiResponse response "variation"
  end.

(** [Promise.allSettled]: every promise is waited for, and the outcomes
    are listed in the order of the promises. *)
Definition allSettled {A} (promises : list (Settled A)) : list (Settled A) :=
  promises.

Definition settled_value {A} (r : Settled A) : option A :=
  match r with fulfilled v => Some v | rejected _ => None end.

(** [firstError?.reason?.message]. *)
Definition reason_message {A} (r : option (Settled A)) : option string :=
  match r with
  | Some (rejected (ErrorObj m)) => Some m
  | _ => None
  end.

(** [generateVariations], given what the file reader and the three
    requests answer. The requests are issued only once the image part is
    there; their outcomes are independent of one another. *)
Definition generateVariations (readAsDataURL : Settled string)
    (reply1 reply2 reply3 : Settled GenerateContentResponse)
    : Settled (list string) :=
  match fileToPart readAsDataURL with
  | rejected e => rejected e
  | fulfilled originalImagePart =>
      let variationPromises :=
        [ generateSingleVariation reply1;
          generateSingleVariation reply2;
          generateSingleVariation reply3 ] in
      let results := allSettled variationPromises in
      let successfulVariations :=
        omap settled_value (filter (λ r, is_fulfilled r = true) results) in
      if bool_decide (length successfulVariations = 0) then
        let firstError := List.find is_rejected results in
        rejected (ErrorObj (or_else (reason_message firstError)
          "Failed to generate any variations. Please try a different prompt."))
      else fulfilled successfulVariations
  end.

(** Sample replies for the examples: one that carries an image, one that
    the safety filter stopped. *)
Definition sampleImageReply : Settled GenerateContentResponse :=
  fulfilled (mkResponse None
    (Some [mkCandidate
             (Some [mkPart None;
                    mkPart (Some (mkInlineData (Some "image/png") (Some "QUJD")))])
             (Some "STOP")])
    None).

Definition sampleStoppedReply : Settled GenerateContentResponse :=
  fulfilled (mkResponse None (Some [mkCandidate None (Some "SAFETY")]) None).

Definition sampleDataUrl : string := "data:image/png;base64,QUJD".

End GeminiService.

(** ** App.tsx *)

Module App.
Import Js.

(** A [File] as its constructor receives it: the bytes, the name and the
    [type] option. *)
Record File : Type := mkFile {
  bits : list Z;
  name : string;
  type : string }.

Inductive Tab : Type :=
| Tab_retouch | Tab_character | Tab_harmonize | Tab_adjust | Tab_filters
| Tab_crop | Tab_resize | Tab_variations | Tab_infographics | Tab_animate.

Inductive View : Type :=
| View_start | View_textToImage | View_pricing | View_tutorials.

(** A point of the image, [{ x, y }]. The handlers below store and clear
    hotspots and pass them on; they do not compute with them. *)
Record Hotspot : Type := mkHotspot { x : Z; y : Z }.

(** [Crop] and [PixelCrop] of react-image-crop; the handlers below only
    store and clear them. *)
Inductive CropUnit : Type := px | percent.

Record Crop : Type := mkCrop {
  unit_ : CropUnit;
  crop_x : Z; crop_y : Z;
  width : Z; height : Z }.

(** The state of the [App] component: its [useState] cells that the
    handlers below read or write, in the order of their declaration, and
    the browser's [localStorage]. *)
Record AppState : Type := mkAppState {
  view : View;
  isPro : bool;
  credits : Z;
  showLimitModal : bool;
  history : list File;
  historyIndex : Z;
  prompt : string;
  loadingTab : option Tab;
  error : option string;
  editHotspot : option Hotspot;
  displayHotspot : option Hotspot;
  activeTab : Tab;
  retouchImage : option File;
  crop : option Crop;
  completedCrop : option Crop;
  variations : list string;
  selectedVariationIndex : option Z;
  videoUrl : option string;
  isTourActive : bool;
  localStorage : gmap string string }.

(** A state update, as a setter call performs it. *)
Definition Update : Type := AppState → AppState.

Definition skip : Update := λ st, st.

(** [u1 ;; u2]: first [u1], then [u2]. *)
Definition seq (u1 u2 : Update) : Update := λ st, u2 (u1 st).
Notation "u1 ;; u2" := (seq u1 u2) (at level 100, u2 at level 200, right associativity).

Definition setView (v : View) : Update := λ st,
  {| view := v; isPro := isPro st; credits := credits st;
     showLimitModal := showLimitModal st; history := history st;
     historyIndex := historyIndex st; prompt := prompt st;
     loadingTab := loadingTab st; error := error st;
     editHotspot := editHotspot st; displayHotspot := displayHotspot st;
     activeTab := activeTab st; retouchImage := retouchImage st;
     crop := crop st; completedCrop := completedCrop st;
     variations := variations st;
     selectedVariationIndex := selectedVariationIndex st;
     videoUrl := videoUrl st; isTourActive := isTourActive st;
     localStorage := localStorage st |}.

Definition setIsPro (v : bool) : Update := λ st,
  {| view := view st; isPro := v; credits := credits st;
     showLimitModal := showLimitModal st; history := history st;
     historyIndex := historyIndex st; prompt := prompt st;
     loadingTab := loadingTab st; error := error st;
     editHotspot := editHotspot st; displayHotspot := displayHotspot st;
     activeTab := activeTab st; retouchImage := retouchImage st;
     crop := crop st; completedCrop := completedCrop st;
     variations := variations st;
     selectedVariationIndex := selectedVariationIndex st;
     videoUrl := videoUrl st; isTourActive := isTourActive st;
     localStorage := localStorage st |}.

Definition setCredits (v : Z) : Update := λ st,
  {| view := view st; isPro := isPro st; credits := v;
     showLimitModal := showLimitModal st; history := history st;
     historyIndex := historyIndex st; prompt := prompt st;
     loadingTab := loadingTab st; error := error st;
     editHotspot := editHotspot st; displayHotspot := displayHotspot st;
     activeTab := activeTab st; retouchImage := retouchImage st;
     crop := crop st; completedCrop := completedCrop st;
     variations := variations st;
     selectedVariationIndex := selectedVariationIndex st;
     videoUrl := videoUrl st; isTourActive := isTourActive st;
     localStorage := localStorage st |}.

Definition setShowLimitModal (v : bool) : Update := λ st,
  {| view := view st; isPro := isPro st; credits := credits st;
     showLimitModal := v; history := history st;
     historyIndex := historyIndex st; prompt := prompt st;
     loadingTab := loadingTab st; error := error st;
     editHotspot := editHotspot st; displayHotspot := displayHotspot st;
     activeTab := activeTab st; retouchImage := retouchImage st;
     crop := crop st; completedCrop := completedCrop st;
     variations := variations st;
     selectedVariationIndex := selectedVariationIndex st;
     videoUrl := videoUrl st; isTourActive := isTourActive st;
     localStorage := localStorage st |}.

Definition setHistory (v : list File) : Update := λ st,
  {| view := view st; isPro := isPro st; credits := credits st;
     showLimitModal := showLimitModal st; history := v;
     historyIndex := historyIndex st; prompt := prompt st;
     loadingTab := loadingTab st; error := error st;
     editHotspot := editHotspot st; displayHotspot := displayHotspot st;
     activeTab := activeTab st; retouchImage := retouchImage st;
     crop := crop st; completedCrop := completedCrop st;
     variations := variations st;
     selectedVariationIndex := selectedVariationIndex st;
     videoUrl := videoUrl st; isTourActive := isTourActive st;
     localStorage := localStorage st |}.

Definition setHistoryIndex (v : Z) : Update := λ st,
  {| view := view st; isPro := isPro st; credits := credits st;
     showLimitModal := showLimitModal st; history := history st;
     historyIndex := v; prompt := prompt st; loadingTab := loadingTab st;
     error := error st; editHotspot := editHotspot st;
     displayHotspot := displayHotspot st; activeTab := activeTab st;
     retouchImage := retouchImage st; crop := crop st;
     completedCrop := completedCrop st; variations := variations st;
     selectedVariationIndex := selectedVariationIndex st;
     videoUrl := videoUrl st; isTourActive := isTourActive st;
     localStorage := localStorage st |}.

Definition setPrompt (v : string) : Update := λ st,
  {| view := view st; isPro := isPro st; credits := credits st;
     showLimitModal := showLimitModal st; history := history st;
     historyIndex := historyIndex st; prompt := v;
     loadingTab := loadingTab st; error := error st;
     editHotspot := editHotspot st; displayHotspot := displayHotspot st;
     activeTab := activeTab st; retouchImage := retouchImage st;
     crop := crop st; completedCrop := completedCrop st;
     variations := variations st;
     selectedVariationIndex := selectedVariationIndex st;
     videoUrl := videoUrl st; isTourActive := isTourActive st;
     localStorage := localStorage st |}.

Definition setLoadingTab (v : option Tab) : Update := λ st,
  {| view := view st; isPro := isPro st; credits := credits st;
     showLimitModal := showLimitModal st; history := history st;
     historyIndex := historyIndex st; prompt := prompt st; loadingTab := v;
     error := error st; editHotspot := editHotspot st;
     displayHotspot := displayHotspot st; activeTab := activeTab st;
     retouchImage := retouchImage st; crop := crop st;
     completedCrop := completedCrop st; variations := variations st;
     selectedVariationIndex := selectedVariationIndex st;
     videoUrl := videoUrl st; isTourActive := isTourActive st;
     localStorage := localStorage st |}.

Definition setError (v : option string) : Update := λ st,
  {| view := view st; isPro := isPro st; credits := credits st;
     showLimitModal := showLimitModal st; history := history st;
     historyIndex := historyIndex st; prompt := prompt st;
     loadingTab := loadingTab st; error := v; editHotspot := editHotspot st;
     displayHotspot := displayHotspot st; activeTab := activeTab st;
     retouchImage := retouchImage st; crop := crop st;
     completedCrop := completedCrop st; variations := variations st;
     selectedVariationIndex := selectedVariationIndex st;
     videoUrl := videoUrl st; isTourActive := isTourActive st;
     localStorage := localStorage st |}.

Definition setEditHotspot (v : option Hotspot) : Update := λ st,
  {| view := view st; isPro := isPro st; credits := credits st;
     showLimitModal := showLimitModal st; history := history st;
     historyIndex := historyIndex st; prompt := prompt st;
     loadingTab := loadingTab st; error := error st; editHotspot := v;
     displayHotspot := displayHotspot st; activeTab := activeTab st;
     retouchImage := retouchImage st; crop := crop st;
     completedCrop := completedCrop st; variations := variations st;
     selectedVariationIndex := selectedVariationIndex st;
     videoUrl := videoUrl st; isTourActive := isTourActive st;
     localStorage := localStorage st |}.

Definition setDisplayHotspot (v : option Hotspot) : Update := λ st,
  {| view := view st; isPro := isPro st; credits := credits st;
     showLimitModal := showLimitModal st; history := history st;
     historyIndex := historyIndex st; prompt := prompt st;
     loadingTab := loadingTab st; error := error st;
     editHotspot := editHotspot st; displayHotspot := v;
     activeTab := activeTab st; retouchImage := retouchImage st;
     crop := crop st; completedCrop := completedCrop st;
     variations := variations st;
     selectedVariationIndex := selectedVariationIndex st;
     videoUrl := videoUrl st; isTourActive := isTourActive st;
     localStorage := localStorage st |}.

Definition setActiveTab (v : Tab) : Update := λ st,
  {| view := view st; isPro := isPro st; credits := credits st;
     showLimitModal := showLimitModal st; history := history st;
     historyIndex := historyIndex st; prompt := prompt st;
     loadingTab := loadingTab st; error := error st;
     editHotspot := editHotspot st; displayHotspot := displayHotspot st;
     activeTab := v; retouchImage := retouchImage st; crop := crop st;
     completedCrop := completedCrop st; variations := variations st;
     selectedVariationIndex := selectedVariationIndex st;
     videoUrl := videoUrl st; isTourActive := isTourActive st;
     localStorage := localStorage st |}.

Definition setRetouchImage (v : option File) : Update := λ st,
  {| view := view st; isPro := isPro st; credits := credits st;
     showLimitModal := showLimitModal st; history := history st;
     historyIndex := historyIndex st; prompt := prompt st;
     loadingTab := loadingTab st; error := error st;
     editHotspot := editHotspot st; displayHotspot := displayHotspot st;
     activeTab := activeTab st; retouchImage := v; crop := crop st;
     completedCrop := completedCrop st; variations := variations st;
     selectedVariationIndex := selectedVariationIndex st;
     videoUrl := videoUrl st; isTourActive := isTourActive st;
     localStorage := localStorage st |}.

Definition setCrop (v : option Crop) : Update := λ st,
  {| view := view st; isPro := isPro st; credits := credits st;
     showLimitModal := showLimitModal st; history := history st;
     historyIndex := historyIndex st; prompt := prompt st;
     loadingTab := loadingTab st; error := error st;
     editHotspot := editHotspot st; displayHotspot := displayHotspot st;
     activeTab := activeTab st; retouchImage := retouchImage st; crop := v;
     completedCrop := completedCrop st; variations := variations st;
     selectedVariationIndex := selectedVariationIndex st;
     videoUrl := videoUrl st; isTourActive := isTourActive st;
     localStorage := localStorage st |}.

Definition setCompletedCrop (v : option Crop) : Update := λ st,
  {| view := view st; isPro := isPro st; credits := credits st;
     showLimitModal := showLimitModal st; history := history st;
     historyIndex := historyIndex st; prompt := prompt st;
     loadingTab := loadingTab st; error := error st;
     editHotspot := editHotspot st; displayHotspot := displayHotspot st;
     activeTab := activeTab st; retouchImage := retouchImage st;
     crop := crop st; completedCrop := v; variations := variations st;
     selectedVariationIndex := selectedVariationIndex st;
     videoUrl := videoUrl st; isTourActive := isTourActive st;
     localStorage := localStorage st |}.

Definition setVariations (v : list string) : Update := λ st,
  {| view := view st; isPro := isPro st; credits := credits st;
     showLimitModal := showLimitModal st; history := history st;
     historyIndex := historyIndex st; prompt := prompt st;
     loadingTab := loadingTab st; error := error st;
     editHotspot := editHotspot st; displayHotspot := displayHotspot st;
     activeTab := activeTab st; retouchImage := retouchImage st;
     crop := crop st; completedCrop := completedCrop st; variations := v;
     selectedVariationIndex := selectedVariationIndex st;
     videoUrl := videoUrl st; isTourActive := isTourActive st;
     localStorage := localStorage st |}.

Definition setSelectedVariationIndex (v : option Z) : Update := λ st,
  {| view := view st; isPro := isPro st; credits := credits st;
     showLimitModal := showLimitModal st; history := history st;
     historyIndex := historyIndex st; prompt := prompt st;
     loadingTab := loadingTab st; error := error st;
     editHotspot := editHotspot st; displayHotspot := displayHotspot st;
     activeTab := activeTab st; retouchImage := retouchImage st;
     crop := crop st; completedCrop := completedCrop st;
     variations := variations st; selectedVariationIndex := v;
     videoUrl := videoUrl st; isTourActive := isTourActive st;
     localStorage := localStorage st |}.

Definition setVideoUrl (v : option string) : Update := λ st,
  {| view := view st; isPro := isPro st; credits := credits st;
     showLimitModal := showLimitModal st; history := history st;
     historyIndex := historyIndex st; prompt := prompt st;
     loadingTab := loadingTab st; error := error st;
     editHotspot := editHotspot st; displayHotspot := displayHotspot st;
     activeTab := activeTab st; retouchImage := retouchImage st;
     crop := crop st; completedCrop := completedCrop st;
     variations := variations st;
     selectedVariationIndex := selectedVariationIndex st; videoUrl := v;
     isTourActive := isTourActive st; localStorage := localStorage st |}.

Definition setIsTourActive (v : bool) : Update := λ st,
  {| view := view st; isPro := isPro st; credits := credits st;
     showLimitModal := showLimitModal st; history := history st;
     historyIndex := historyIndex st; prompt := prompt st;
     loadingTab := loadingTab st; error := error st;
     editHotspot := editHotspot st; displayHotspot := displayHotspot st;
     activeTab := activeTab st; retouchImage := retouchImage st;
     crop := crop st; completedCrop := completedCrop st;
     variations := variations st;
     selectedVariationIndex := selectedVariationIndex st;
     videoUrl := videoUrl st; isTourActive := v;
     localStorage := localStorage st |}.

Definition setLocalStorage (v : gmap string string) : Update := λ st,
  {| view := view st; isPro := isPro st; credits := credits st;
     showLimitModal := showLimitModal st; history := history st;
     historyIndex := historyIndex st; prompt := prompt st;
     loadingTab := loadingTab st; error := error st;
     editHotspot := editHotspot st; displayHotspot := displayHotspot st;
     activeTab := activeTab st; retouchImage := retouchImage st;
     crop := crop st; completedCrop := completedCrop st;
     variations := variations st;
     selectedVariationIndex := selectedVariationIndex st;
     videoUrl := videoUrl st; isTourActive := isTourActive st;
     localStorage := v |}.

Definition localStorage_getItem (key : string) (st : AppState) : option string :=
  localStorage st !! key.

Definition localStorage_setItem (key value : string) : Update := λ st,
  setLocalStorage (<[key := value]> (localStorage st)) st.

(** *** Usage limits *)

Definition DAILY_FREE_LIMIT : Z := 5.
Definition COST_IMAGE_GEN : Z := 1.
Definition COST_VIDEO_GEN : Z := 5.

(** The state of the first render: the initial value of every cell, over
    whatever the browser has stored. *)
Definition initialState (storage : gmap string string) : AppState :=
  {| view := View_start; isPro := false; credits := DAILY_FREE_LIMIT;
     showLimitModal := false; history := []; historyIndex := -1;
     prompt := EmptyString; loadingTab := None; error := None;
     editHotspot := None; displayHotspot := None; activeTab := Tab_retouch;
     retouchImage := None; crop := None; completedCrop := None;
     variations := []; selectedVariationIndex := None; videoUrl := None;
     isTourActive := false; localStorage := storage |}.

(** [checkCredits]: its answer, and the update it performs on the way. *)
Definition checkCredits (r : AppState) (cost : Z) : bool * Update :=
  if isPro r then (true, skip)
  else if (credits r >=? cost)%Z then (true, skip)
  else (false, setShowLimitModal true).

Definition deductCredits (r : AppState) (cost : Z) : Update :=
  if isPro r then skip
  else
    let newCredits := (credits r - cost)%Z in
    setCredits newCredits ;;
    localStorage_setItem "bw_credits" (toString newCredits).

(** *** The edit history *)

Definition currentImage (r : AppState) : option File :=
  index (history r) (historyIndex r).

Definition originalImage (r : AppState) : option File :=
  index (history r) 0.

Definition canUndo (r : AppState) : bool := (historyIndex r >? 0)%Z.

Definition canRedo (r : AppState) : bool :=
  (historyIndex r <? Z.of_nat (length (history r)) - 1)%Z.

Definition addImageToHistory (r : AppState) (newImageFile : File) : Update :=
  let newHistory := slice (history r) 0 (historyIndex r + 1) ++ [newImageFile] in
  setHistory newHistory ;;
  setHistoryIndex (Z.of_nat (length newHistory) - 1) ;;
  setCrop None ;;
  setCompletedCrop None ;;
  setVariations [] ;;
  setSelectedVariationIndex None ;;
  setVideoUrl None ;;
  setRetouchImage None.

(** [handleImageUpload] closes over nothing; the tour flag is read from
    the store as it is when the handler runs. *)
Definition handleImageUpload (file : File) : Update :=
  setError None ;;
  setHistory [file] ;;
  setHistoryIndex 0 ;;
  setEditHotspot None ;;
  setDisplayHotspot None ;;
  setActiveTab Tab_retouch ;;
  setCrop None ;;
  setCompletedCrop None ;;
  setVariations [] ;;
  setSelectedVariationIndex None ;;
  setVideoUrl None ;;
  setRetouchImage None ;;
  setView View_start ;;
  (λ st,
     let tourSeen := localStorage_getItem "brainwave_tour_seen" st in
     if negb (truthy_opt tourSeen) then setIsTourActive true st else st).

Definition handleAnimationSelect (files : option (list File)) : Update :=
  match files with
  | Some (file :: _) =>
      setError None ;;
      setHistory [file] ;;
      setHistoryIndex 0 ;;
      setEditHotspot None ;;
      setDisplayHotspot None ;;
      setActiveTab Tab_animate ;;
      setCrop None ;;
      setCompletedCrop None ;;
      setVariations [] ;;
      setSelectedVariationIndex None ;;
      setVideoUrl None ;;
      setRetouchImage None ;;
      setView View_start
  | _ => skip
  end.

Definition handleEndTour : Update :=
  setIsTourActive false ;;
  localStorage_setItem "brainwave_tour_seen" "true".

Definition handleImageGenerated (r : AppState) (file : File) : Update :=
  handleImageUpload file ;;
  deductCredits r COST_IMAGE_GEN.

Definition handleUndo (r : AppState) : Update :=
  if canUndo r then
    setHistoryIndex (historyIndex r - 1) ;;
    setEditHotspot None ;;
    setDisplayHotspot None ;;
    setVariations [] ;;
    setSelectedVariationIndex None ;;
    setVideoUrl None ;;
    setRetouchImage None
  else skip.

Definition handleRedo (r : AppState) : Update :=
  if canRedo r then
    setHistoryIndex (historyIndex r + 1) ;;
    setEditHotspot None ;;
    setDisplayHotspot None ;;
    setVariations [] ;;
    setSelectedVariationIndex None ;;
    setVideoUrl None ;;
    setRetouchImage None
  else skip.

Definition handleReset (r : AppState) : Update :=
  if (Z.of_nat (length (history r)) >? 0)%Z then
    setHistoryIndex 0 ;;
    setError None ;;
    setEditHotspot None ;;
    setDisplayHotspot None ;;
    setVariations [] ;;
    setSelectedVariationIndex None ;;
    setVideoUrl None ;;
    setRetouchImage None
  else skip.

Definition handleUploadNew : Update :=
  setHistory [] ;;
  setHistoryIndex (-1) ;;
  setError None ;;
  setPrompt EmptyString ;;
  setEditHotspot None ;;
  setDisplayHotspot None ;;
  setVariations [] ;;
  setSelectedVariationIndex None ;;
  setVideoUrl None ;;
  setRetouchImage None ;;
  setView View_start.

(** *** Handlers that wait for the remote model *)

(** The call a handler awaits. *)
Inductive Request : Type :=
| GenerateEditedImage (originalImage : File) (userPrompt : string)
    (hotspot : Hotspot) (retouch : option File).

(** An [async] handler: it either returns after the update [u], or
    performs [before], awaits [request], and resumes with the outcome of
    the call and the clock reading [Date.now()] takes then. *)
Inductive Async : Type :=
| Return (u : Update)
| Await (before : Update) (request : Request)
    (resume : Settled string → Z → Update).

(** The whole handler when nothing else happens while it waits. *)
Definition complete (a : Async) (reply : Settled string) (now : Z) : Update :=
  match a with
  | Return u => u
  | Await before _ resume => before ;; resume reply now
  end.

(** [err instanceof Error ? err.message : 'An unknown error occurred.'] *)
Definition errorMessage (err : Thrown) : string :=
  match err with
  | ErrorObj message => message
  | NonError => "An unknown error occurred."
  end.

Section Browser.

(** [atob] of the browser: the decoded binary string, or the exception
    it throws on text that is not base64. *)
Variable atob : string → Settled string.

Definition dataURLtoFile (dataurl filename : string) : Settled File :=
  match split_comma dataurl with
  | arr0 :: arr1 :: _ =>
      match match_mime arr0 with
      | Some mime =>
          if truthy mime then
            match atob arr1 with
            | fulfilled bstr => fulfilled (mkFile (charCodes bstr) filename mime)
            | rejected e => rejected e
            end
          else rejected (ErrorObj "Could not parse MIME type from data URL")
      | None => rejected (ErrorObj "Could not parse MIME type from data URL")
      end
  | _ => rejected (ErrorObj "Invalid data URL")
  end.

Definition handleGenerate (r : AppState) : Async :=
  match currentImage r, loadingTab r with
  | Some image, None =>
      let (enough, modal) := checkCredits r COST_IMAGE_GEN in
      if negb enough then Return modal
      else if negb (truthy (trim (prompt r))) then
        Return (modal ;; setError (Some "Please enter a description for your edit."))
      else
        match editHotspot r with
        | None =>
            Return (modal ;;
              setError (Some "Please click on the image to select an area to edit."))
        | Some hotspot =>
            Await
              (modal ;; setLoadingTab (Some Tab_retouch) ;; setError None)
              (GenerateEditedImage image (prompt r) hotspot (retouchImage r))
              (λ reply now,
                 let catch (err : Thrown) : Update :=
                   setError (Some ("Failed to generate the image. " +:+ errorMessage err)) in
                 match reply with
                 | fulfilled editedImageUrl =>
                     match dataURLtoFile editedImageUrl
                             ("edited-" +:+ toString now +:+ ".png") with
                     | fulfilled newImageFile =>
                         addImageToHistory r newImageFile ;;
                         deductCredits r COST_IMAGE_GEN ;;
                         setEditHotspot None ;;
                         setDisplayHotspot None ;;
                         setRetouchImage None
                     | rejected err => catch err
                     end
                 | rejected err => catch err
                 end ;;
                 setLoadingTab None)
        end
  | _, _ => Return skip
  end.

(** [handleApplyVariation] is synchronous; an exception of
    [dataURLtoFile] leaves it before any setter is called. *)
Definition handleApplyVariation (r : AppState) (now : Z) : Update :=
  let selected : option string :=
    selectedVariationIndex r ≫= index (variations r) in
  match selected with
  | Some variation =>
      if truthy variation then
        match dataURLtoFile variation
                ("variation-" +:+ toString now +:+ ".png") with
        | fulfilled newImageFile => addImageToHistory r newImageFile
        | rejected _ => skip
        end
      else setError (Some "Please select a variation to apply.")
  | None => setError (Some "Please select a variation to apply.")
  end.

End Browser.

(** *** Dispatch *)

(** A synchronous handler runs against the render that is current when
    its event fires. *)
Definition fire (handler : AppState → Update) : Update := λ st, handler st st.

(** The operations of the history store, as the component performs
    them. *)
Definition load (version : File) : Update := handleImageUpload version.
Definition append (version : File) : Update := fire (λ r, addImageToHistory r version).
Definition undo : Update := fire handleUndo.
Definition redo : Update := fire handleRedo.
Definition reset : Update := fire handleReset.
Definition discard : Update := handleUploadNew.

(** Consecutive appends, first version first. *)
Definition appends (versions : list File) (st : AppState) : AppState :=
  foldl (λ s version, append version s) st versions.

(** The states the component can be in. A continuation of an [async]
    handler, or an [onload] callback, appends with the render it was
    created in, which need not be the current one; whatever else the
    component does leaves [history] and [historyIndex] alone. *)
Inductive reachable : AppState → Prop :=
| reach_initial storage : reachable (initialState storage)
| reach_load st file : reachable st → reachable (load file st)
| reach_animation st files : reachable st → reachable (handleAnimationSelect files st)
| reach_generated st file : reachable st → reachable (fire (λ r, handleImageGenerated r file) st)
| reach_append r st file :
    reachable r → reachable st → reachable (addImageToHistory r file st)
| reach_undo st : reachable st → reachable (undo st)
| reach_redo st : reachable st → reachable (redo st)
| reach_reset st : reachable st → reachable (reset st)
| reach_discard st : reachable st → reachable (discard st)
| reach_other st st' :
    reachable st → history st' = history st → historyIndex st' = historyIndex st →
    reachable st'.

(** The cursor invariant of the store. *)
Definition cursor_inv (st : AppState) : Prop :=
  (history st = [] ∧ historyIndex st = (-1)%Z) ∨
  (history st ≠ [] ∧ (0 ≤ historyIndex st < Z.of_nat (length (history st)))%Z).

(** The transient selection state, cell by cell. *)
Definition hotspot_cleared (st : AppState) : Prop :=
  editHotspot st = None ∧ displayHotspot st = None.

Definition crop_cleared (st : AppState) : Prop :=
  crop st = None ∧ completedCrop st = None.

Definition candidates_cleared (st : AppState) : Prop :=
  variations st = [] ∧ selectedVariationIndex st = None.

Definition video_cleared (st : AppState) : Prop := videoUrl st = None.

Definition selection_cleared (st : AppState) : Prop :=
  hotspot_cleared st ∧ crop_cleared st ∧ candidates_cleared st ∧ video_cleared st.


(** Sample versions for the examples. *)
Definition sample (n : Z) : File :=
  mkFile [n] ("v" +:+ toString n +:+ ".png") "image/png".

(** A session in which two versions exist, the second one is shown, a
    hotspot has been clicked and a crop rectangle drawn. *)
Definition sampleHotspot : Hotspot := mkHotspot 120 45.
Definition sampleCrop : Crop := mkCrop px 10 10 200 100.
Definition sampleSession : AppState :=
  (load (sample 0) ;; append (sample 1) ;;
   setDisplayHotspot (Some sampleHotspot) ;; setEditHotspot (Some sampleHotspot) ;;
   setCrop (Some sampleCrop) ;; setCompletedCrop (Some sampleCrop))
  (initialState ∅).

(** The same session once a prompt is typed: [handleGenerate] goes all the
    way to the remote call. *)
Definition sampleReady : AppState := setPrompt "make the sky blue" sampleSession.

End App.

(** ** App.tsx: the other handlers *)

Module Editor.
Import Js App.

Definition handleUpgrade : Update :=
  setIsPro true ;;
  setCredits 9999 ;;
  localStorage_setItem "bw_is_pro" "true" ;;
  setShowLimitModal false ;;
  setView View_start.

Definition handleFileSelect (files : option (list File)) : Update :=
  match files with
  | Some (file :: _) => handleImageUpload file
  | _ => skip
  end.

(** [onImageGenerated] of the text-to-image screen. *)
Definition onImageGenerated (r : AppState) (file : File) : Update :=
  let (enough, modal) := checkCredits r COST_IMAGE_GEN in
  if enough then modal ;; handleImageGenerated r file ;; setView View_start
  else modal.

(** [onBackToHome] and [onNavClick] of the header. *)
Definition onBackToHome (r : AppState) : Update :=
  match currentImage r with
  | Some _ => handleUploadNew
  | None => setView View_start
  end.

Definition onNavClick (viewName : View) : Update :=
  handleUploadNew ;; setView viewName.

(** What the handlers below wait for: a call of the service, or the
    loading of an image element. *)
Inductive ServiceCall : Type :=
| HarmonizeImage (originalImage : File)
| FixImageComposition (originalImage : File)
| GenerateFilteredImage (originalImage : File) (filterPrompt : string)
| GenerateAdjustedImage (originalImage : File) (adjustmentPrompt : string)
| GenerateInfographicImage (originalImage : File)
    (infographicPrompt infographicData : string)
    (overlayImage : option File) (hotspot : option Hotspot)
| GenerateVariations (originalImage : File) (variationPrompt : string)
| LoadImage (source : File) (width height : Z).

(** A handler that may wait: it returns after [u], or performs [before],
    waits for [call], and resumes with an input of type [I]. *)
Inductive Task (I : Type) : Type :=
| Finished (u : Update)
| Pending (before : Update) (call : ServiceCall) (resume : I → Update).
Global Arguments Finished {I} u.
Global Arguments Pending {I} before call resume.

(** The whole handler when nothing else happens while it waits. *)
Definition finish {I} (t : Task I) (input : I) : Update :=
  match t with
  | Finished u => u
  | Pending before _ resume => before ;; resume input
  end.

(** The outcome of an image call, and the clock reading [Date.now()]
    takes when the handler resumes. *)
Definition ImageReply : Type := Settled string * Z.

Section Browser.
Variable atob : string → Settled string.

Definition handleApplyHarmonize (r : AppState) : Task ImageReply :=
  match currentImage r, loadingTab r with
  | Some image, None =>
      let (enough, modal) := checkCredits r COST_IMAGE_GEN in
      if negb enough then Finished modal
      else
        Pending
          (modal ;; setLoadingTab (Some Tab_harmonize) ;; setError None)
          (HarmonizeImage image)
          (λ '(reply, now),
             let catch (err : Thrown) : Update :=
               setError (Some ("Failed to harmonize the image. " +:+ errorMessage err)) in
             match reply with
             | fulfilled newImageUrl =>
                 match dataURLtoFile atob newImageUrl
                         ("harmonized-" +:+ toString now +:+ ".png") with
                 | fulfilled newImageFile =>
                     addImageToHistory r newImageFile ;;
                     deductCredits r COST_IMAGE_GEN
                 | rejected err => catch err
                 end
             | rejected err => catch err
             end ;;
             setLoadingTab None)
  | _, _ => Finished skip
  end.

Definition handleDoTheMagic (r : AppState) : Task ImageReply :=
  match currentImage r, loadingTab r with
  | Some image, None =>
      let (enough, modal) := checkCredits r COST_IMAGE_GEN in
      if negb enough then Finished modal
      else
        Pending
          (modal ;; setLoadingTab (Some Tab_harmonize) ;; setError None)
          (FixImageComposition image)
          (λ '(reply, now),
             let catch (err : Thrown) : Update :=
               setError (Some ("Failed to perform magic fix. " +:+ errorMessage err)) in
             match reply with
             | fulfilled newImageUrl =>
                 match dataURLtoFile atob newImageUrl
                         ("magic-fix-" +:+ toString now +:+ ".png") with
                 | fulfilled newImageFile =>
                     addImageToHistory r newImageFile ;;
                     deductCredits r COST_IMAGE_GEN
                 | rejected err => catch err
                 end
             | rejected err => catch err
             end ;;
             setLoadingTab None)
  | _, _ => Finished skip
  end.

Definition handleApplyFilter (r : AppState) (filterPrompt : string)
    : Task ImageReply :=
  match currentImage r, loadingTab r with
  | Some image, None =>
      let (enough, modal) := checkCredits r COST_IMAGE_GEN in
      if negb enough then Finished modal
      else
        Pending
          (modal ;; setLoadingTab (Some Tab_filters) ;; setError None)
          (GenerateFilteredImage image filterPrompt)
          (λ '(reply, now),
             let catch (err : Thrown) : Update :=
               setError (Some ("Failed to apply the filter. " +:+ errorMessage err)) in
             match reply with
             | fulfilled filteredImageUrl =>
                 match dataURLtoFile atob filteredImageUrl
                         ("filtered-" +:+ toString now +:+ ".png") with
                 | fulfilled newImageFile =>
                     addImageToHistory r newImageFile ;;
                     deductCredits r COST_IMAGE_GEN
                 | rejected err => catch err
                 end
             | rejected err => catch err
             end ;;
             setLoadingTab None)
  | _, _ => Finished skip
  end.

Definition handleApplyAdjustment (r : AppState) (adjustmentPrompt : string)
    : Task ImageReply :=
  match currentImage r, loadingTab r with
  | Some image, None =>
      let (enough, modal) := checkCredits r COST_IMAGE_GEN in
      if negb enough then Finished modal
      else
        Pending
          (modal ;; setLoadingTab (Some Tab_adjust) ;; setError None)
          (GenerateAdjustedImage image adjustmentPrompt)
          (λ '(reply, now),
             let catch (err : Thrown) : Update :=
               setError (Some ("Failed to apply the adjustment. " +:+ errorMessage err)) in
             match reply with
             | fulfilled adjustedImageUrl =>
                 match dataURLtoFile atob adjustedImageUrl
                         ("adjusted-" +:+ toString now +:+ ".png") with
                 | fulfilled newImageFile =>
                     addImageToHistory r newImageFile ;;
                     deductCredits r COST_IMAGE_GEN
                 | rejected err => catch err
                 end
             | rejected err => catch err
             end ;;
             setLoadingTab None)
  | _, _ => Finished skip
  end.

Definition handleApplyInfographic (r : AppState)
    (infographicPrompt infographicData : string) (overlayImage : option File)
    : Task ImageReply :=
  match currentImage r, loadingTab r with
  | Some image, None =>
      let (enough, modal) := checkCredits r COST_IMAGE_GEN in
      if negb enough then Finished modal
      else
        Pending
          (modal ;; setLoadingTab (Some Tab_infographics) ;; setError None)
          (GenerateInfographicImage image infographicPrompt infographicData
             overlayImage (editHotspot r))
          (λ '(reply, now),
             let catch (err : Thrown) : Update :=
               setError (Some ("Failed to generate the infographic. " +:+ errorMessage err)) in
             match reply with
             | fulfilled newImageUrl =>
                 match dataURLtoFile atob newImageUrl
                         ("infographic-" +:+ toString now +:+ ".png") with
                 | fulfilled newImageFile =>
                     addImageToHistory r newImageFile ;;
                     deductCredits r COST_IMAGE_GEN ;;
                     setEditHotspot None ;;
                     setDisplayHotspot None
                 | rejected err => catch err
                 end
             | rejected err => catch err
             end ;;
             setLoadingTab None)
  | _, _ => Finished skip
  end.

(** [handleApplyCrop] is synchronous. [image] tells whether the image
    element is mounted, [canvas] what [toDataURL] of the canvas gives, if
    a 2d context could be had. An exception of [dataURLtoFile] leaves the
    handler before any setter is called. *)
Definition handleApplyCrop (r : AppState) (image : bool)
    (canvas : option string) (now : Z) : Update :=
  match completedCrop r, image with
  | Some _, true =>
      match canvas with
      | None => setError (Some "Could not process the crop.")
      | Some croppedImageUrl =>
          match dataURLtoFile atob croppedImageUrl
                  ("cropped-" +:+ toString now +:+ ".png") with
          | fulfilled newImageFile => addImageToHistory r newImageFile
          | rejected _ => skip
          end
      end
  | _, _ => setError (Some "Please select an area to crop.")
  end.

(** How the loading of the image element of [handleApplyResize] ends:
    [onload], with what the canvas gives if a 2d context could be had and
    the clock reading, or [onerror]. *)
Inductive ImageLoad : Type :=
| onload (canvas : option string) (now : Z)
| onerror.

Definition handleApplyResize (r : AppState) (width height : Z)
    : Task ImageLoad :=
  match currentImage r with
  | None => Finished (setError (Some "Could not find the image to resize."))
  | Some image =>
      Pending skip (LoadImage image width height)
        (λ load,
           match load with
           | onload None _ =>
               setError (Some "Could not process the resize operation.")
           | onload (Some resizedImageUrl) now =>
               match dataURLtoFile atob resizedImageUrl
                       ("resized-" +:+ toString now +:+ ".png") with
               | fulfilled newImageFile => addImageToHistory r newImageFile
               | rejected _ => skip
               end
           | onerror => setError (Some "Failed to load the image for resizing.")
           end)
  end.

(** The five handlers that send the current image to the service and
    append what comes back, each with the prefix of the file name it
    gives and the tab it marks as loading. *)
Definition edit_handlers (filterPrompt adjustmentPrompt : string)
    (infographicPrompt infographicData : string) (overlayImage : option File)
    : list (string * Tab * (AppState → Task ImageReply)) :=
  [ ("harmonized-", Tab_harmonize, handleApplyHarmonize);
    ("magic-fix-", Tab_harmonize, handleDoTheMagic);
    ("filtered-", Tab_filters, λ r, handleApplyFilter r filterPrompt);
    ("adjusted-", Tab_adjust, λ r, handleApplyAdjustment r adjustmentPrompt);
    ("infographic-", Tab_infographics,
       λ r, handleApplyInfographic r infographicPrompt infographicData overlayImage) ].

End Browser.

Definition handleGenerateVariations (r : AppState) (variationPrompt : string)
    : Task (Settled (list string)) :=
  match currentImage r, loadingTab r with
  | Some image, None =>
      let (enough, modal) := checkCredits r (COST_IMAGE_GEN * 3) in
      if negb enough then Finished modal
      else
        Pending
          (modal ;; setLoadingTab (Some Tab_variations) ;; setError None ;;
           setVariations [] ;; setSelectedVariationIndex None)
          (GenerateVariations image variationPrompt)
          (λ reply,
             match reply with
             | fulfilled generatedVariations =>
                 (if bool_decide (length generatedVariations = 0) then
                    setError (Some "The AI could not generate variations for this prompt. Please try a different one.")
                  else skip) ;;
                 setVariations generatedVariations ;;
                 deductCredits r (COST_IMAGE_GEN * 3)
             | rejected err =>
                 setError (Some ("Failed to generate variations. " +:+ errorMessage err))
             end ;;
             setLoadingTab None)
  | _, _ => Finished skip
  end.

(** The guard every handler that calls the service passes first. *)
Definition may_call (r : AppState) (cost : Z) (image : File) : Prop :=
  currentImage r = Some image ∧ loadingTab r = None ∧
  (isPro r = true ∨ (cost ≤ credits r)%Z).

(** The sample session of an account that has used up its credits. *)
Definition sampleBroke : AppState := setCredits 0 sampleReady.

End Editor.

(** ** services/geminiService.ts: the single-image calls and the animation *)

Module GeminiCalls.
Import Js GeminiService.

(** The four calls that return one image: the file is read, the request
    sent, and the reply goes through [handleApiResponse] under the name of
    the call. [readAsDataURL] is what the file reader gives, [reply] what
    [ai.models.generateContent] answers. *)
Definition imageCall (context : string) (readAsDataURL : Settled string)
    (reply : Settled GenerateContentResponse) : Settled string :=
  match fileToPart readAsDataURL with
  | rejected e => rejected e
  | fulfilled originalImagePart =>
      match reply with
      | rejected e => rejected e
      | fulfilled response => handleApiResponse response context
      end
  end.

Definition generateEditedImage := imageCall "edit".
Definition generateFilteredImage := imageCall "filter".
Definition generateAdjustedImage := imageCall "adjustment".
Definition generateInfographicImage := imageCall "infographic".

(** The inline data [handleApiResponse] reads the image from:
    [candidates?.[0]?.content?.parts?.find(part => part.inlineData)
    ?.inlineData]. *)
Definition imageOf (response : GenerateContentResponse) : option InlineData :=
  let candidate0 : option Candidate := candidates response ≫= head in
  let imagePartFromResponse : option Part :=
    (candidate0 ≫= parts) ≫= List.find has_inlineData in
  imagePartFromResponse ≫= inlineData.

(** Whether the prompt was blocked: [promptFeedback?.blockReason]. *)
Definition blocked (response : GenerateContentResponse) : bool :=
  truthy_opt (promptFeedback response ≫= blockReason : option string).

(** *** [generateAnimation] *)

(** The long-running operation of [ai.models.generateVideos], as far as
    the service reads it: [done], [error] with its [message], and the
    [uri] of the first generated video. *)
Record Operation : Type := mkOperation {
  done : bool;
  op_error : option (option string);
  uri : option string }.

(** The reply of [fetch]: [ok], [statusText], the outcome of [text()] and
    of [blob()] followed by [URL.createObjectURL]. *)
Record FetchResponse : Type := mkFetchResponse {
  ok : bool;
  statusText : string;
  body_text : Settled string;
  blob_url : Settled string }.

Definition pollingMessages : list string :=
  [ "Rendering the first few frames...";
    "Applying advanced motion effects...";
    "Almost there, polishing the pixels...";
    "Finalizing the video stream..." ].

(** The messages passed to [onStatusUpdate] so far, oldest first, and how
    the call ended, if it did. *)
Definition Progress (A : Type) : Type := list string * option (Settled A).

(** The polling loop, over the answers of [getVideosOperation] that have
    arrived. Each turn passes its message to [onStatusUpdate] and then
    sends the poll, so the message is out before the answer is in. The
    loop ends when an operation is done or a poll fails; when the answers
    run out it is waiting for the answer of the poll it has just sent (the
    ten seconds before a poll are taken as over). *)
Fixpoint poll (operation : Operation) (messageIndex : nat)
    (answers : list (Settled Operation)) : Progress Operation :=
  if done operation then ([], Some (fulfilled operation))
  else
    let message :=
      default "undefined" (pollingMessages !! (messageIndex mod 4)) in
    match answers with
    | [] => ([message], None)
    | answer :: answers' =>
        match answer with
        | rejected _ =>
            ([message],
             Some (rejected (ErrorObj
               "Failed to get operation status during polling. Please try again.")))
        | fulfilled operation' =>
            let (messages, result) := poll operation' (S messageIndex) answers' in
            (message :: messages, result)
        end
    end.

(** What follows the loop. *)
Definition download (operation : Operation) (fetched : Settled FetchResponse)
    : Progress string :=
  match op_error operation with
  | Some message =>
      ([], Some (rejected (ErrorObj
         ("Video generation failed: " +:+ interpolate message))))
  | None =>
      if negb (truthy_opt (uri operation)) then
        ([], Some (rejected (ErrorObj
           "Video generation completed, but no download link was provided.")))
      else
        match fetched with
        | rejected e => (["Downloading generated video..."], Some (rejected e))
        | fulfilled response =>
            if negb (ok response) then
              match body_text response with
              | rejected e => (["Downloading generated video..."], Some (rejected e))
              | fulfilled errorText =>
                  (["Downloading generated video..."],
                   Some (rejected (ErrorObj
                     ("Failed to download video file: " +:+ statusText response))))
              end
            else
              match blob_url response with
              | rejected e => (["Downloading generated video..."], Some (rejected e))
              | fulfilled videoUrl =>
                  (["Downloading generated video..."; "Animation complete!"],
                   Some (fulfilled videoUrl))
              end
        end
  end.

Definition generateAnimation (readAsDataURL : Settled string)
    (started : Settled Operation) (answers : list (Settled Operation))
    (fetched : Settled FetchResponse) : Progress string :=
  match readAsDataURL with
  | rejected e => ([], Some (rejected e))
  | fulfilled dataUrl =>
      match started with
      | rejected e => (["Warming up the animation engine..."], Some (rejected e))
      | fulfilled operation =>
          let opening :=
            [ "Warming up the animation engine...";
              "AI is storyboarding your scene..." ] in
          match poll operation 0 answers with
          | (messages, None) => (opening ++ messages, None)
          | (messages, Some (rejected e)) => (opening ++ messages, Some (rejected e))
          | (messages, Some (fulfilled final)) =>
              let (closing, result) := download final fetched in
              (opening ++ messages ++ closing, result)
          end
      end
  end.

(** The message of the poll number [k], counting from 0. *)
Definition pollingMessage (k : nat) : string :=
  default "undefined" (pollingMessages !! (k mod 4)).

(** Sample operations for the examples. *)
Definition samplePending : Operation := mkOperation false None None.
Definition sampleDone : Operation :=
  mkOperation true None (Some "https://video.example/v1").
Definition sampleFetch : FetchResponse :=
  mkFetchResponse true "OK" (fulfilled EmptyString) (fulfilled "blob:1234").

End GeminiCalls.

(** ** components: the prompt panels and the guided tour *)

Module Panels.
Import Js App.

(** [FilterPanel], [AdjustmentPanel] and [VariationsPanel] hold the same
    two cells and the same three handlers: a preset prompt or a custom
    one. *)
Record PromptChoice : Type := mkPromptChoice {
  selectedPresetPrompt : option string;
  customPrompt : string }.

Definition initialChoice : PromptChoice := mkPromptChoice None EmptyString.

(** [selectedPresetPrompt || customPrompt] *)
Definition activePrompt (c : PromptChoice) : string :=
  or_else (selectedPresetPrompt c) (customPrompt c).

Definition handlePresetClick (prompt : string) (c : PromptChoice) : PromptChoice :=
  mkPromptChoice (Some prompt) EmptyString.

Definition handleCustomChange (value : string) (c : PromptChoice) : PromptChoice :=
  mkPromptChoice None value.

(** [handleApply] (and [handleGenerate] of the variations panel): the
    prompt passed to the callback of the panel, if the callback is
    called. *)
Definition handleApply (c : PromptChoice) : option string :=
  if truthy (activePrompt c) then Some (activePrompt c) else None.

(** What the user does in such a panel. *)
Inductive ChoiceEvent : Type :=
| PresetClick (prompt : string)
| CustomChange (value : string).

Definition choose (c : PromptChoice) (e : ChoiceEvent) : PromptChoice :=
  match e with
  | PresetClick prompt => handlePresetClick prompt c
  | CustomChange value => handleCustomChange value c
  end.

Definition chosen (e : ChoiceEvent) : string :=
  match e with PresetClick prompt => prompt | CustomChange value => value end.

(** *** GuidedTour *)

Record TourStep : Type := mkTourStep {
  targetId : string;
  title : string;
  content : string;
  position : string }.

Definition tourSteps : list TourStep :=
  [ mkTourStep "image-canvas" "Step 1: Select an Area"
      "Welcome! First, click anywhere on the image to place a hotspot. This tells the AI where to focus the edit."
      "bottom";
    mkTourStep "prompt-input" "Step 2: Describe Your Edit"
      "Great! Now, tell the AI what you want to do. Be specific, like 'make the sky purple' or 'remove this car'."
      "top";
    mkTourStep "generate-button" "Step 3: Generate!"
      "Click 'Generate' and watch the magic happen. You're all set to start creating!"
      "top" ].

(** The tour inside the application: its [step] cell and the state of the
    [App] component, whose [handleEndTour] it is given as [onEndTour]. *)
Definition handleNext (tour : Z * AppState) : Z * AppState :=
  let (step, st) := tour in
  if (step <? Z.of_nat (length tourSteps) - 1)%Z then ((step + 1)%Z, st)
  else (step, handleEndTour st).

Definition currentStep (step : Z) : option TourStep := index tourSteps step.

End Panels.

(** ** services/web3Service.ts *)

Module Web3Service.
Import Js.

Definition SEI_CHAIN_ID_HEX : string := "0x531".

(** The answer of the wallet to one request: the value it resolves to, or
    the [code] of the error it rejects with, if the error has one. *)
Inductive Answer (A : Type) : Type :=
| resolved (value : A)
| failed (code : option Z).
Global Arguments resolved {A} value.
Global Arguments failed {A} code.

(** What the injected provider answers to each of the requests the
    service makes. *)
Record EthereumProvider : Type := mkProvider {
  eth_requestAccounts : Answer (list string);
  eth_accounts : Answer (list string);
  eth_chainId : Answer string;
  wallet_switchEthereumChain : Answer unit;
  wallet_addEthereumChain : Answer unit }.

(** What a call of the service does: the methods it requests of the
    provider, in order, whether it raises the alert, and what it
    returns. *)
Record Connection : Type := mkConnection {
  requests : list string;
  alerted : bool;
  returned : option string }.

Definition connectToSei (ethereum : option EthereumProvider) : Connection :=
  match ethereum with
  | None => mkConnection [] true None
  | Some provider =>
      match eth_requestAccounts provider with
      | failed _ => mkConnection ["eth_requestAccounts"] false None
      | resolved accounts =>
          let account := head accounts in
          match eth_chainId provider with
          | failed _ =>
              mkConnection ["eth_requestAccounts"; "eth_chainId"] false None
          | resolved chainId =>
              if bool_decide (chainId ≠ SEI_CHAIN_ID_HEX) then
                match wallet_switchEthereumChain provider with
                | resolved _ =>
                    mkConnection
                      ["eth_requestAccounts"; "eth_chainId";
                       "wallet_switchEthereumChain"] false account
                | failed code =>
                    if bool_decide (code = Some 4902%Z) then
                      match wallet_addEthereumChain provider with
                      | resolved _ =>
                          mkConnection
                            ["eth_requestAccounts"; "eth_chainId";
                             "wallet_switchEthereumChain";
                             "wallet_addEthereumChain"] false account
                      | failed _ =>
                          mkConnection
                            ["eth_requestAccounts"; "eth_chainId";
                             "wallet_switchEthereumChain";
                             "wallet_addEthereumChain"] false None
                      end
                    else
                      mkConnection
                        ["eth_requestAccounts"; "eth_chainId";
                         "wallet_switchEthereumChain"] false None
                end
              else
                mkConnection ["eth_requestAccounts"; "eth_chainId"] false account
          end
      end
  end.

Definition checkIfWalletConnected (ethereum : option EthereumProvider)
    : Connection :=
  match ethereum with
  | None => mkConnection [] false None
  | Some provider =>
      match eth_accounts provider with
      | failed _ => mkConnection ["eth_accounts"] false None
      | resolved accounts =>
          if (Z.of_nat (length accounts) >? 0)%Z
          then mkConnection ["eth_accounts"] false (head accounts)
          else mkConnection ["eth_accounts"] false None
      end
  end.

(** Sample wallets for the examples: one on another chain that does not
    know Sei yet, one that refuses to switch. *)
Definition sampleWallet : EthereumProvider :=
  mkProvider (resolved ["0xA11CE"; "0xB0B"]) (resolved ["0xA11CE"; "0xB0B"])
    (resolved "0x1") (failed (Some 4902%Z)) (resolved tt).

Definition sampleStubbornWallet : EthereumProvider :=
  mkProvider (resolved ["0xA11CE"]) (resolved ["0xA11CE"])
    (resolved "0x1") (failed (Some 4001%Z)) (resolved tt).

End Web3Service.

(** ** Sessions: sequences of store operations *)

Module Session.
Import Js App.

(** What happens to the versions in the course of one session. Undo,
    redo and reset are click handlers and run in the render on screen. An
    edit is appended by the continuation of the handler that started it,
    and [addImageToHistory] there is the one of the render in which the
    edit was started: [Append age version] appends to the render [age]
    steps back in the run. [age] is 0 for [handleApplyCrop] and
    [handleApplyVariation], which append at once; it is more when a call
    or the loading of an image was pending while the user went on. *)
Inductive Move : Type :=
| Append (age : nat) (version : File)
| Undo
| Redo
| Reset.

(** The render [age] steps back, in a run that began in [start] and has
    been through the states [past], the latest first; the run is not
    older than its start. *)
Definition render (start : AppState) (past : list AppState) (age : nat)
    : AppState :=
  nth age past start.

Definition move (start : AppState) (past : list AppState) (m : Move)
    : AppState :=
  let st := render start past 0 in
  match m with
  | Append age version => addImageToHistory (render start past age) version st
  | Undo => undo st
  | Redo => redo st
  | Reset => reset st
  end.

(** The states a run goes through, the latest first. *)
Fixpoint run (ms : list Move) (start : AppState) (past : list AppState)
    : list AppState :=
  match ms with
  | [] => past
  | m :: ms' => run ms' start (move start past m :: past)
  end.

Definition moves (ms : list Move) (st : AppState) : AppState :=
  render st (run ms st []) 0.

(** [c] occurs in [s]. *)
Fixpoint occurs (c : ascii) (s : string) : bool :=
  match s with
  | EmptyString => false
  | String c' s' => Ascii.eqb c' c || occurs c s'
  end.

(** A MIME type and a payload that a data URL can carry as they are. *)
Definition plain_mime (m : string) : bool :=
  truthy m && negb (occurs "," m) && negb (occurs ";" m)
  && negb (occurs "010" m) && negb (occurs "013" m).

Definition plain_payload (d : string) : bool := negb (occurs "," d).

End Session.

(** ** Properties of the edit history *)

Import Js GeminiService App.

Section SliceFacts.
Context {A : Type}.
Implicit Types (arr : list A) (i : Z).

Lemma slice_prefix arr i :
  (0 ≤ i ≤ Z.of_nat (length arr))%Z → slice arr 0 i = take (Z.to_nat i) arr.
Proof.
  intros Hi. unfold slice, clamp.
  destruct (Z.ltb_spec i 0); [lia|].
  change (0 <? 0)%Z with false.
  rewrite (Z.min_l 0), (Z.min_l i) by lia.
  cbn [Z.to_nat drop]. f_equal. lia.
Qed.

Lemma slice_whole arr : slice arr 0 (Z.of_nat (length arr)) = arr.
Proof. rewrite slice_prefix by lia. rewrite Nat2Z.id. apply firstn_all. Qed.


Lemma index_in_range arr i :
  (0 ≤ i < Z.of_nat (length arr))%Z → index arr i = arr !! Z.to_nat i.
Proof. intros Hi. unfold index. destruct (Z.ltb_spec i 0); [lia | done]. Qed.
End SliceFacts.

(** What [addImageToHistory] writes in the two cells of the history. *)
Lemma history_addImageToHistory r v st :
  history (addImageToHistory r v st)
  = slice (history r) 0 (historyIndex r + 1) ++ [v].
Proof. reflexivity. Qed.

Lemma historyIndex_addImageToHistory r v st :
  historyIndex (addImageToHistory r v st)
  = (Z.of_nat (length (history (addImageToHistory r v st))) - 1)%Z.
Proof. reflexivity. Qed.

Lemma appends_at_end vs : ∀ st,
  historyIndex st = (Z.of_nat (length (history st)) - 1)%Z →
  history (appends vs st) = history st ++ vs ∧
  historyIndex (appends vs st) = (Z.of_nat (length (history st ++ vs)) - 1)%Z.
Proof.
  induction vs as [|v vs IH]; intros st Hst; cbn [appends foldl].
  - by rewrite app_nil_r.
  - fold (appends vs (append v st)).
    destruct (IH (append v st)) as [Hh Hi].
    { unfold append, fire. apply historyIndex_addImageToHistory. }
    rewrite Hh, Hi. unfold append, fire.
    rewrite history_addImageToHistory, Hst.
    replace (Z.of_nat (length (history st)) - 1 + 1)%Z
      with (Z.of_nat (length (history st))) by lia.
    rewrite slice_whole, <- !app_assoc. done.
Qed.

(** Runs the setter calls of an update: the cells are computed by need,
    and nothing but the setters and the cells is unfolded. *)
Ltac run_setters :=
  lazy beta iota zeta delta [
    seq skip fire localStorage_getItem setView setIsPro setCredits setShowLimitModal setHistory
    setHistoryIndex setPrompt setLoadingTab setError setEditHotspot
    setDisplayHotspot setActiveTab setRetouchImage setCrop setCompletedCrop
    setVariations setSelectedVariationIndex setVideoUrl setIsTourActive
    setLocalStorage view isPro credits showLimitModal history historyIndex
    prompt loadingTab error editHotspot displayHotspot activeTab
    retouchImage crop completedCrop variations selectedVariationIndex
    videoUrl isTourActive localStorage localStorage_setItem ].

(** *** What each operation writes in the two cells of the history *)

Lemma history_append v st :
  history (append v st) = slice (history st) 0 (historyIndex st + 1) ++ [v].
Proof. reflexivity. Qed.

Lemma historyIndex_append v st :
  historyIndex (append v st) = (Z.of_nat (length (history (append v st))) - 1)%Z.
Proof. reflexivity. Qed.

Lemma history_load v st : history (load v st) = [v].
Proof.
  unfold load, handleImageUpload, seq.
  match goal with |- context [negb ?c] => destruct c end; reflexivity.
Qed.

Lemma historyIndex_load v st : historyIndex (load v st) = 0%Z.
Proof.
  unfold load, handleImageUpload, seq.
  match goal with |- context [negb ?c] => destruct c end; reflexivity.
Qed.

Lemma history_undo st : history (undo st) = history st.
Proof. unfold undo, fire, handleUndo. destruct (canUndo st); reflexivity. Qed.

Lemma historyIndex_undo st :
  historyIndex (undo st)
  = if canUndo st then (historyIndex st - 1)%Z else historyIndex st.
Proof. unfold undo, fire, handleUndo. destruct (canUndo st); reflexivity. Qed.

Lemma history_redo st : history (redo st) = history st.
Proof. unfold redo, fire, handleRedo. destruct (canRedo st); reflexivity. Qed.

Lemma historyIndex_redo st :
  historyIndex (redo st)
  = if canRedo st then (historyIndex st + 1)%Z else historyIndex st.
Proof. unfold redo, fire, handleRedo. destruct (canRedo st); reflexivity. Qed.

Lemma history_reset st : history (reset st) = history st.
Proof.
  unfold reset, fire, handleReset.
  destruct (Z.of_nat (length (history st)) >? 0)%Z; reflexivity.
Qed.

Lemma historyIndex_reset st :
  historyIndex (reset st)
  = if (Z.of_nat (length (history st)) >? 0)%Z then 0%Z else historyIndex st.
Proof.
  unfold reset, fire, handleReset.
  destruct (Z.of_nat (length (history st)) >? 0)%Z; reflexivity.
Qed.

Lemma history_discard st : history (discard st) = [].
Proof. reflexivity. Qed.

Lemma historyIndex_discard st : historyIndex (discard st) = (-1)%Z.
Proof. reflexivity. Qed.

Create Rewrite HintDb store.
#[local] Hint Rewrite
  history_append historyIndex_append history_load historyIndex_load
  history_undo historyIndex_undo history_redo historyIndex_redo
  history_reset historyIndex_reset history_discard historyIndex_discard
  : store.

(** Replays a concrete trace of store operations: the two cells are
    rewritten operation by operation, then the guards are evaluated. *)
Ltac replay :=
  unfold currentImage, originalImage;
  repeat (autorewrite with store; unfold canUndo, canRedo);
  try reflexivity.

Lemma canUndo_spec st : canUndo st = true ↔ (0 < historyIndex st)%Z.
Proof. unfold canUndo. rewrite Z.gtb_ltb. apply Z.ltb_lt. Qed.

Lemma canRedo_spec st :
  canRedo st = true ↔ (historyIndex st < Z.of_nat (length (history st)) - 1)%Z.
Proof. unfold canRedo. apply Z.ltb_lt. Qed.

Lemma redo_iter_history n st : history (Nat.iter n redo st) = history st.
Proof. induction n as [|n IH]; [done|]. by rewrite Nat.iter_succ, history_redo. Qed.

Lemma redo_iter_index n : ∀ st,
  (0 ≤ historyIndex st)%Z →
  (historyIndex st + Z.of_nat n < Z.of_nat (length (history st)))%Z →
  historyIndex (Nat.iter n redo st) = (historyIndex st + Z.of_nat n)%Z.
Proof.
  induction n as [|n IH]; intros st H0 Hn.
  - change (Nat.iter 0 redo st) with st. lia.
  - rewrite Nat.iter_succ, historyIndex_redo, IH by lia.
    destruct (canRedo (Nat.iter n redo st)) eqn:E; [lia|].
    apply not_true_iff_false in E. rewrite canRedo_spec in E.
    rewrite redo_iter_history, IH in E by lia. lia.
Qed.

(** C1. When a version is loaded and the cursor is in range, [append v]
    replaces the versions by those up to the cursor followed by [v], and
    the cursor becomes the last index. Hence [N] appends from the empty
    store leave exactly the [N] versions with the cursor on the last one,
    and load v0, append v1, append v2, undo, undo, append v3 ends with the
    versions [v0; v3] and the cursor at 1. *)
Theorem append_truncates_after_cursor :
  (∀ st v,
     history st ≠ [] →
     (0 ≤ historyIndex st < Z.of_nat (length (history st)))%Z →
     history (append v st)
       = take (Z.to_nat (historyIndex st + 1)) (history st) ++ [v] ∧
     historyIndex (append v st)
       = (Z.of_nat (length (history (append v st))) - 1)%Z ∧
     historyIndex (append v st) = (historyIndex st + 1)%Z) ∧
  (∀ st0 vs,
     history st0 = [] → historyIndex st0 = (-1)%Z →
     let st := appends vs st0 in
     history st = vs ∧
     length (history st) = length vs ∧
     historyIndex st = (Z.of_nat (length (history st)) - 1)%Z) ∧
  (∀ st0 v0 v1 v2 v3,
     let st := append v3 (undo (undo (append v2 (append v1 (load v0 st0))))) in
     history st = [v0; v3] ∧ historyIndex st = 1%Z).
Proof.
  split; [|split].
  - intros st v Hne Hi.
    assert (history (append v st)
            = take (Z.to_nat (historyIndex st + 1)) (history st) ++ [v]) as Hh.
    { rewrite history_append, slice_prefix by lia. done. }
    split; [exact Hh|]. split; [apply historyIndex_append|].
    rewrite historyIndex_append, Hh, length_app, length_take. cbn [length]. lia.
  - intros st0 vs Hempty Hcursor st.
    destruct (appends_at_end vs st0) as [Hh Hi]; [by rewrite Hempty, Hcursor|].
    subst st. rewrite Hi, Hh, Hempty. done.
  - intros st0 v0 v1 v2 v3 st. subst st. split; replay.
Qed.

Lemma append_truncates_after_cursor_witness :
  let st := load (sample 0) (initialState ∅) in
  history (append (sample 1) st) = [sample 0; sample 1] ∧
  historyIndex (append (sample 1) st) = 1%Z.
Proof.
  intros st.
  destruct (proj1 append_truncates_after_cursor st (sample 1)) as (Hh & _ & Hi).
  - subst st. by rewrite history_load.
  - subst st. rewrite history_load, historyIndex_load. cbn. lia.
  - split.
    + rewrite Hh. subst st. rewrite history_load, historyIndex_load. reflexivity.
    + rewrite Hi. subst st. rewrite historyIndex_load. reflexivity.
Defined.




(** C3. On a store that holds a version, [reset] puts the cursor on 0 and
    keeps every version, so [redo] walks forward again: [k] redos after
    the reset put the cursor on [k], up to the last index. After load v0,
    append v1, append v2, reset: three versions, cursor 0, and redo shows
    v1, then v2. *)
Theorem reset_keeps_versions st :
  history st ≠ [] →
  historyIndex (reset st) = 0%Z ∧
  history (reset st) = history st ∧
  (∀ k, k < length (history st) →
     historyIndex (Nat.iter k redo (reset st)) = Z.of_nat k ∧
     history (Nat.iter k redo (reset st)) = history st) ∧
  (∀ st0 v0 v1 v2,
     let s := reset (append v2 (append v1 (load v0 st0))) in
     history s = [v0; v1; v2] ∧ length (history s) = 3 ∧ historyIndex s = 0%Z ∧
     historyIndex (redo s) = 1%Z ∧ currentImage (redo s) = Some v1 ∧
     historyIndex (redo (redo s)) = 2%Z ∧ currentImage (redo (redo s)) = Some v2 ∧
     history (redo (redo s)) = [v0; v1; v2]).
Proof.
  intros Hne.
  assert (historyIndex (reset st) = 0%Z) as Hi.
  { rewrite historyIndex_reset.
    destruct (history st) as [|v l]; [done|]. reflexivity. }
  split; [exact Hi|]. split; [apply history_reset|]. split.
  - intros k Hk. rewrite redo_iter_history, history_reset. split; [|done].
    rewrite redo_iter_index; rewrite ?history_reset, Hi; lia.
  - intros st0 v0 v1 v2 s. subst s. repeat split; replay.
Qed.

Lemma reset_keeps_versions_witness :
  let st := append (sample 2) (append (sample 1) (load (sample 0) (initialState ∅))) in
  historyIndex (reset st) = 0%Z ∧ history (reset st) = history st.
Proof.
  intros st.
  destruct (reset_keeps_versions st) as (Hi & Hh & _).
  - assert (history st = [sample 0; sample 1; sample 2]) as E by (subst st; replay).
    by rewrite E.
  - split; [exact Hi | exact Hh].
Defined.

(** C6. From a state of the store that satisfies the cursor invariant,
    with the cursor above 0, [undo] followed by [redo] gives back the
    cursor and the current version (and the versions). *)
Theorem undo_redo_round_trip st :
  cursor_inv st →
  (historyIndex st > 0)%Z →
  historyIndex (redo (undo st)) = historyIndex st ∧
  currentImage (redo (undo st)) = currentImage st ∧
  history (redo (undo st)) = history st.
Proof.
  intros [[_ Hi] | [_ Hi]] Hpos; [lia|].
  assert (canUndo st = true) as Hu by (apply canUndo_spec; lia).
  assert (canRedo (undo st) = true) as Hr.
  { apply canRedo_spec. rewrite historyIndex_undo, history_undo, Hu. lia. }
  assert (historyIndex (redo (undo st)) = historyIndex st) as Hidx.
  { rewrite historyIndex_redo, Hr, historyIndex_undo, Hu. lia. }
  unfold currentImage.
  by rewrite Hidx, history_redo, history_undo.
Qed.

Lemma undo_redo_round_trip_witness :
  let st := append (sample 1) (load (sample 0) (initialState ∅)) in
  historyIndex st = 1%Z ∧
  historyIndex (redo (undo st)) = 1%Z ∧
  currentImage (redo (undo st)) = Some (sample 1).
Proof.
  intros st.
  assert (history st = [sample 0; sample 1]) as Hh by (subst st; replay).
  assert (historyIndex st = 1%Z) as Hi by (subst st; replay).
  destruct (undo_redo_round_trip st) as (Hidx & Hcur & _).
  - right. rewrite Hh, Hi. split; [done | cbn; lia].
  - rewrite Hi. lia.
  - split; [exact Hi|]. split; [by rewrite Hidx|].
    rewrite Hcur. unfold currentImage. by rewrite Hh, Hi.
Defined.

Lemma handleUndo_declined r st : historyIndex r = 0%Z → handleUndo r st = st.
Proof. intros Hi. unfold handleUndo, canUndo. by rewrite Hi. Qed.

Lemma handleRedo_declined r st :
  historyIndex r = (Z.of_nat (length (history r)) - 1)%Z → handleRedo r st = st.
Proof.
  intros Hi. unfold handleRedo, canRedo. rewrite Hi.
  by rewrite Z.ltb_irrefl.
Qed.

(** C7, as the code has it. With the cursor on 0, [undo] is a no-op: it
    leaves the whole state as it is, the versions, the cursor and the
    error message with them. A handler created in a render that cannot
    undo does nothing to whatever state it is run on. With the cursor on
    the last index the same holds of [redo]. Nothing is reported: the
    handlers return no value and write no cell. *)
Theorem undo_redo_declined_at_the_ends st :
  (historyIndex st = 0%Z →
     undo st = st ∧ error (undo st) = error st ∧
     ∀ st', handleUndo st st' = st') ∧
  (historyIndex st = (Z.of_nat (length (history st)) - 1)%Z →
     redo st = st ∧ error (redo st) = error st ∧
     ∀ st', handleRedo st st' = st').
Proof.
  split; intros Hi.
  - assert (undo st = st) as Hsame by exact (handleUndo_declined st st Hi).
    split; [exact Hsame|]. split; [by rewrite Hsame|].
    intros st'. by apply handleUndo_declined.
  - assert (redo st = st) as Hsame by exact (handleRedo_declined st st Hi).
    split; [exact Hsame|]. split; [by rewrite Hsame|].
    intros st'. by apply handleRedo_declined.
Qed.

Lemma undo_redo_declined_at_the_ends_witness :
  undo (load (sample 0) (initialState ∅)) = load (sample 0) (initialState ∅) ∧
  redo (load (sample 0) (initialState ∅)) = load (sample 0) (initialState ∅).
Proof.
  destruct (undo_redo_declined_at_the_ends (load (sample 0) (initialState ∅)))
    as [Hu Hr].
  split.
  - apply Hu. apply historyIndex_load.
  - apply Hr. rewrite history_load. apply historyIndex_load.
Defined.

Lemma single_version_ends v st :
  historyIndex (load v st) = 0%Z ∧
  historyIndex (load v st) = (Z.of_nat (length (history (load v st))) - 1)%Z.
Proof. rewrite history_load, historyIndex_load. done. Qed.

Lemma declined_reports_nothing st :
  historyIndex st = 0%Z →
  historyIndex st = (Z.of_nat (length (history st)) - 1)%Z →
  error st = None →
  historyIndex st = 0%Z ∧
  historyIndex st = (Z.of_nat (length (history st)) - 1)%Z ∧
  undo st = st ∧ error (undo st) = None ∧
  redo st = st ∧ error (redo st) = None ∧
  ¬ (undo st ≠ st ∨ redo st ≠ st).
Proof.
  intros Hfirst Hlast He.
  assert (undo st = st) as Hu by exact (handleUndo_declined st st Hfirst).
  assert (redo st = st) as Hr by exact (handleRedo_declined st st Hlast).
  split; [exact Hfirst|]. split; [exact Hlast|].
  split; [exact Hu|]. split; [by rewrite Hu|].
  split; [exact Hr|]. split; [by rewrite Hr|].
  intros [H | H]; by apply H.
Qed.

(** C7, as stated, fails: a declined [undo] or [redo] reports nothing. In
    a session with one version the cursor is on 0 and on the last index;
    [undo] and [redo] return the very state they were given, in which no
    error message is set, so that a declined operation cannot be told
    from no operation. *)
Lemma undo_redo_report_counterexample :
  let st := load (sample 0) (initialState ∅) in
  historyIndex st = 0%Z ∧
  historyIndex st = (Z.of_nat (length (history st)) - 1)%Z ∧
  undo st = st ∧ error (undo st) = None ∧
  redo st = st ∧ error (redo st) = None ∧
  ¬ (undo st ≠ st ∨ redo st ≠ st).
Proof.
  cbv zeta.
  destruct (single_version_ends (sample 0) (initialState ∅)) as [Hfirst Hlast].
  exact (declined_reports_nothing (load (sample 0) (initialState ∅))
           Hfirst Hlast eq_refl).
Qed.



(** *** The cursor invariant *)

Lemma cursor_inv_cells st st' :
  history st' = history st → historyIndex st' = historyIndex st →
  cursor_inv st → cursor_inv st'.
Proof. unfold cursor_inv. intros -> ->. done. Qed.

Lemma cursor_inv_single st v :
  history st = [v] → historyIndex st = 0%Z → cursor_inv st.
Proof. intros Hh Hi. right. rewrite Hh, Hi. split; [done | cbn; lia]. Qed.

Lemma cursor_inv_empty st :
  history st = [] → historyIndex st = (-1)%Z → cursor_inv st.
Proof. intros Hh Hi. by left. Qed.

Lemma cursor_inv_addImageToHistory r v st : cursor_inv (addImageToHistory r v st).
Proof.
  right. rewrite historyIndex_addImageToHistory, history_addImageToHistory.
  rewrite length_app. cbn [length]. split; [|lia].
  intros H. by apply app_nil in H as [_ ?].
Qed.

Lemma cursor_inv_append st v : cursor_inv (append v st).
Proof. exact (cursor_inv_addImageToHistory st v st). Qed.

Lemma cursor_inv_undo st : cursor_inv st → cursor_inv (undo st).
Proof.
  intros [[Hh Hi] | [Hh Hi]]; unfold cursor_inv;
    rewrite history_undo, historyIndex_undo.
  - left. unfold canUndo. by rewrite Hi.
  - right. split; [done|].
    destruct (canUndo st) eqn:E; [apply canUndo_spec in E|]; lia.
Qed.

Lemma cursor_inv_redo st : cursor_inv st → cursor_inv (redo st).
Proof.
  intros [[Hh Hi] | [Hh Hi]]; unfold cursor_inv;
    rewrite history_redo, historyIndex_redo.
  - left. unfold canRedo. by rewrite Hh, Hi.
  - right. split; [done|].
    destruct (canRedo st) eqn:E; [apply canRedo_spec in E|]; lia.
Qed.

Lemma cursor_inv_reset st : cursor_inv st → cursor_inv (reset st).
Proof.
  intros [[Hh Hi] | [Hh Hi]]; unfold cursor_inv;
    rewrite history_reset, historyIndex_reset.
  - left. by rewrite Hh.
  - right. split; [done|].
    destruct (Z.of_nat (length (history st)) >? 0)%Z; lia.
Qed.

Lemma cursor_inv_load st v : cursor_inv (load v st).
Proof. eapply cursor_inv_single; [apply history_load | apply historyIndex_load]. Qed.

Lemma cursor_inv_discard st : cursor_inv (discard st).
Proof. by apply cursor_inv_empty. Qed.

Lemma cursor_inv_animation st files :
  cursor_inv st → cursor_inv (handleAnimationSelect files st).
Proof.
  intros Hst. unfold handleAnimationSelect.
  destruct files as [[|file files]|]; try exact Hst.
  by apply (cursor_inv_single _ file).
Qed.

Lemma cells_generated st v :
  let st' := fire (λ r, handleImageGenerated r v) st in
  history st' = [v] ∧ historyIndex st' = 0%Z.
Proof.
  unfold fire, handleImageGenerated, deductCredits, handleImageUpload.
  destruct (isPro st); run_setters;
    match goal with |- context [negb ?c] => destruct c end;
    split; reflexivity.
Qed.

Lemma cursor_inv_generated st v :
  cursor_inv (fire (λ r, handleImageGenerated r v) st).
Proof.
  destruct (cells_generated st v) as [Hh Hi].
  exact (cursor_inv_single _ v Hh Hi).
Qed.

Lemma reachable_append st v : reachable st → reachable (append v st).
Proof. intros H. exact (reach_append st st v H H). Qed.

(** C8. Every state the component reaches satisfies the cursor invariant:
    the cursor is -1 on the empty store and a valid index otherwise; and
    from a reachable state every operation of the store (load, append,
    undo, redo, reset, discard) leads to a state that satisfies it. *)
Theorem reachable_cursor_inv st :
  reachable st →
  cursor_inv st ∧
  (∀ v, cursor_inv (load v st) ∧ cursor_inv (append v st)) ∧
  cursor_inv (undo st) ∧ cursor_inv (redo st) ∧ cursor_inv (reset st) ∧
  cursor_inv (discard st).
Proof.
  intros Hreach.
  assert (cursor_inv st) as Hinv.
  { induction Hreach.
    - by apply cursor_inv_empty.
    - exact (cursor_inv_load _ _).
    - by apply cursor_inv_animation.
    - apply cursor_inv_generated.
    - apply cursor_inv_addImageToHistory.
    - by apply cursor_inv_undo.
    - by apply cursor_inv_redo.
    - by apply cursor_inv_reset.
    - apply cursor_inv_discard.
    - by eapply cursor_inv_cells. }
  split; [exact Hinv|].
  split; [intros v; split; [apply cursor_inv_load | apply cursor_inv_append]|].
  auto using cursor_inv_undo, cursor_inv_redo, cursor_inv_reset, cursor_inv_discard.
Qed.

Lemma reachable_cursor_inv_witness :
  cursor_inv (undo (append (sample 1) (load (sample 0) (initialState ∅)))).
Proof.
  assert (reachable (undo (append (sample 1) (load (sample 0) (initialState ∅)))))
    as Hreach.
  { apply reach_undo, reachable_append, reach_load, reach_initial. }
  exact (proj1 (reachable_cursor_inv _ Hreach)).
Defined.

Lemma checkCredits_enough r cost limit :
  checkCredits r cost = (true, limit) → limit = skip.
Proof.
  unfold checkCredits.
  destruct (isPro r); [congruence|].
  destruct (credits r >=? cost)%Z; congruence.
Qed.

(** *** The handlers that append stay within the reachable states *)

Lemma reachable_cells st st' :
  reachable st → history st' = history st ∧ historyIndex st' = historyIndex st →
  reachable st'.
Proof. intros H [Hh Hi]. exact (reach_other st st' H Hh Hi). Qed.

Section AppendingHandlers.
Variable atob : string → Settled string.

Lemma reachable_handleGenerate r reply now st :
  reachable r → reachable st →
  reachable (complete (handleGenerate atob r) reply now st).
Proof.
  intros Hr Hst. unfold handleGenerate.
  destruct (currentImage r) as [image|]; [|exact Hst].
  destruct (loadingTab r); [exact Hst|].
  destruct (checkCredits r COST_IMAGE_GEN) as [enough modal] eqn:Hcredits.
  destruct enough; cbn [negb].
  - apply checkCredits_enough in Hcredits as ->.
    destruct (negb (truthy (trim (prompt r)))).
    { apply (reachable_cells st); [exact Hst | split; reflexivity]. }
    destruct (editHotspot r) as [hotspot|].
    2:{ apply (reachable_cells st); [exact Hst | split; reflexivity]. }
    unfold complete.
    destruct reply as [editedImageUrl|err].
    2:{ apply (reachable_cells st); [exact Hst | split; reflexivity]. }
    destruct (dataURLtoFile atob editedImageUrl _) as [newImageFile|err].
    2:{ apply (reachable_cells st); [exact Hst | split; reflexivity]. }
    apply (reachable_cells (addImageToHistory r newImageFile st)).
    { by apply reach_append. }
    unfold deductCredits. destruct (isPro r); split; reflexivity.
  - unfold checkCredits in Hcredits.
    destruct (isPro r); [discriminate|].
    destruct (credits r >=? COST_IMAGE_GEN)%Z; [discriminate|].
    injection Hcredits as <-.
    apply (reachable_cells st); [exact Hst | split; reflexivity].
Qed.

Lemma reachable_handleApplyVariation r now st :
  reachable r → reachable st → reachable (handleApplyVariation atob r now st).
Proof.
  intros Hr Hst. unfold handleApplyVariation.
  destruct (selectedVariationIndex r ≫= index (variations r)) as [variation|].
  2:{ apply (reachable_cells st); [exact Hst | split; reflexivity]. }
  destruct (truthy variation).
  2:{ apply (reachable_cells st); [exact Hst | split; reflexivity]. }
  destruct (dataURLtoFile atob variation _) as [newImageFile|err]; [|exact Hst].
  by apply reach_append.
Qed.

End AppendingHandlers.

(** *** Transient selection state *)

(** C5, as stated, fails. In a session with two versions, a clicked
    hotspot and a drawn crop rectangle, [append] moves the cursor and
    leaves the hotspot in place, and [undo] moves the cursor and leaves
    the crop rectangle in place. *)
Lemma selection_cleared_counterexample :
  historyIndex sampleSession = 1%Z ∧
  (historyIndex (append (sample 2) sampleSession) = 2%Z ∧
   editHotspot (append (sample 2) sampleSession) = Some sampleHotspot ∧
   ¬ selection_cleared (append (sample 2) sampleSession)) ∧
  (historyIndex (undo sampleSession) = 0%Z ∧
   crop (undo sampleSession) = Some sampleCrop ∧
   ¬ selection_cleared (undo sampleSession)).
Proof.
  assert (editHotspot (append (sample 2) sampleSession) = Some sampleHotspot) as Hh
    by (vm_compute; reflexivity).
  assert (crop (undo sampleSession) = Some sampleCrop) as Hc
    by (vm_compute; reflexivity).
  split; [vm_compute; reflexivity|]. split; (split; [vm_compute; reflexivity|]).
  - split; [exact Hh|]. intros [[H _] _]. rewrite Hh in H. discriminate H.
  - split; [exact Hc|]. intros (_ & [H _] & _). rewrite Hc in H. discriminate H.
Qed.

(** C5, as the code has it. Every operation that moves the cursor or
    truncates the versions clears the variation candidates, the pending
    video URL and the retouch image. [append] clears the crop rectangle as
    well; [undo], [redo] and [reset], when they apply, clear the hotspot
    as well. *)
Theorem selection_cleared_by_operation st :
  (∀ v, let st' := append v st in
     crop_cleared st' ∧ candidates_cleared st' ∧ video_cleared st' ∧
     retouchImage st' = None) ∧
  (canUndo st = true →
     let st' := undo st in
     hotspot_cleared st' ∧ candidates_cleared st' ∧ video_cleared st' ∧
     retouchImage st' = None) ∧
  (canRedo st = true →
     let st' := redo st in
     hotspot_cleared st' ∧ candidates_cleared st' ∧ video_cleared st' ∧
     retouchImage st' = None) ∧
  (history st ≠ [] →
     let st' := reset st in
     hotspot_cleared st' ∧ candidates_cleared st' ∧ video_cleared st' ∧
     retouchImage st' = None).
Proof.
  split; [|split; [|split]].
  - intros v st'. subst st'. repeat split; reflexivity.
  - intros Hu st'. subst st'. unfold undo, fire, handleUndo. rewrite Hu.
    repeat split; reflexivity.
  - intros Hr st'. subst st'. unfold redo, fire, handleRedo. rewrite Hr.
    repeat split; reflexivity.
  - intros Hne st'. subst st'. unfold reset, fire, handleReset.
    destruct (history st) as [|v l]; [done|].
    repeat split; reflexivity.
Qed.

Lemma selection_cleared_by_operation_witness :
  canUndo sampleSession = true ∧ hotspot_cleared (undo sampleSession).
Proof.
  assert (canUndo sampleSession = true) as Hu by (vm_compute; reflexivity).
  split; [exact Hu|].
  apply (proj1 (proj2 (selection_cleared_by_operation sampleSession)) Hu).
Defined.

(** *** A failed remote edit *)

Section FailedEdit.
Variable atob : string → Settled string.

(** C2. When [handleGenerate] has issued its remote call and the call is
    rejected, the continuation sets the error message and releases the
    loading flag, and does nothing else: [addImageToHistory] is not
    called, and the versions and the cursor are what they were before,
    whatever the state has become while the call was pending. The same
    holds of the handler taken as a whole. *)
Theorem failed_edit_leaves_history r before request resume :
  handleGenerate atob r = Await before request resume →
  ∀ err now st,
    resume (rejected err) now
      = (setError (Some ("Failed to generate the image. " +:+ errorMessage err)) ;;
         setLoadingTab None) ∧
    history (resume (rejected err) now st) = history st ∧
    historyIndex (resume (rejected err) now st) = historyIndex st ∧
    history (before st) = history st ∧
    historyIndex (before st) = historyIndex st ∧
    history (complete (handleGenerate atob r) (rejected err) now st) = history st ∧
    historyIndex (complete (handleGenerate atob r) (rejected err) now st)
      = historyIndex st.
Proof.
  intros Hcall err now st. rewrite Hcall. revert Hcall.
  unfold handleGenerate.
  destruct (currentImage r) as [image|]; [|discriminate].
  destruct (loadingTab r); [discriminate|].
  destruct (checkCredits r COST_IMAGE_GEN) as [enough limit] eqn:Hcredits.
  destruct enough; [|discriminate]. cbn [negb].
  apply checkCredits_enough in Hcredits as ->.
  destruct (negb (truthy (trim (prompt r)))); [discriminate|].
  destruct (editHotspot r) as [hotspot|]; [|discriminate].
  intros [= <- <- <-].
  repeat split; reflexivity.
Qed.

End FailedEdit.

Lemma failed_edit_leaves_history_witness :
  let st := complete (handleGenerate (λ s, fulfilled s) sampleReady)
              (rejected (ErrorObj "quota exceeded")) 1700000000000 sampleReady in
  history st = history sampleReady ∧ historyIndex st = historyIndex sampleReady.
Proof.
  assert (∃ before request resume,
            handleGenerate (λ s, fulfilled s) sampleReady
            = Await before request resume) as (before & request & resume & Hcall).
  { unfold handleGenerate.
    replace (currentImage sampleReady) with (Some (sample 1))
      by (vm_compute; reflexivity).
    replace (loadingTab sampleReady) with (@None Tab) by (vm_compute; reflexivity).
    replace (checkCredits sampleReady COST_IMAGE_GEN) with (true, skip)
      by (unfold checkCredits;
          replace (isPro sampleReady) with false by (vm_compute; reflexivity);
          replace (credits sampleReady) with 5%Z by (vm_compute; reflexivity);
          reflexivity).
    replace (trim (prompt sampleReady)) with "make the sky blue"
      by (vm_compute; reflexivity).
    replace (editHotspot sampleReady) with (Some sampleHotspot)
      by (vm_compute; reflexivity).
    cbn [negb truthy]. eauto. }
  destruct (failed_edit_leaves_history _ _ _ _ _ Hcall
              (ErrorObj "quota exceeded") 1700000000000%Z sampleReady)
    as (_ & _ & _ & _ & _ & Hh & Hi).
  split; [exact Hh | exact Hi].
Defined.

(** *** Variations *)

Lemma settled_cases {A} (r : Settled A) :
  (∃ v, r = fulfilled v) ∨ (∃ e, r = rejected e).
Proof. destruct r; eauto. Qed.

(** C9. Once the image part is there, [generateVariations] turns the
    outcomes of its three requests into one: if at least one request is
    fulfilled it returns the values of the fulfilled ones, in the order of
    the requests, and drops the rejections; it throws exactly when all
    three requests are rejected. *)
Theorem variations_succeed_if_any_does readAsDataURL part reply1 reply2 reply3 :
  fileToPart readAsDataURL = fulfilled part →
  let results :=
    [ generateSingleVariation reply1;
      generateSingleVariation reply2;
      generateSingleVariation reply3 ] in
  let outcome := generateVariations readAsDataURL reply1 reply2 reply3 in
  ((∃ r, r ∈ results ∧ is_fulfilled r = true) →
     ∃ urls, outcome = fulfilled urls ∧ urls ≠ [] ∧
       urls = omap settled_value results ∧
       (∀ url, url ∈ urls ↔ fulfilled url ∈ results)) ∧
  ((∃ err, outcome = rejected err) ↔ (∀ r, r ∈ results → is_rejected r = true)).
Proof.
  intros Hpart results outcome. subst results outcome.
  unfold generateVariations. rewrite Hpart. unfold allSettled.
  generalize (generateSingleVariation reply1) (generateSingleVariation reply2)
    (generateSingleVariation reply3).
  intros r1 r2 r3. split.
  - intros (r & Hin & Hr).
    exists (omap settled_value [r1; r2; r3]).
    assert (∀ url, url ∈ omap settled_value [r1; r2; r3] ↔ fulfilled url ∈ [r1; r2; r3])
      as Hmem.
    { intros url. rewrite list_elem_of_omap. split.
      - intros (s & Hs & Hv). destruct s; [|discriminate]. by injection Hv as <-.
      - intros Hu. by exists (fulfilled url). }
    destruct r as [v|e]; [|discriminate].
    assert (omap settled_value [r1; r2; r3] ≠ []) as Hne.
    { intros Hnil. apply Hmem in Hin. rewrite Hnil in Hin. by apply elem_of_nil in Hin. }
    split; [|done].
    destruct r1, r2, r3; try reflexivity. by destruct Hne.
  - split.
    + intros [err Hrej] r Hin.
      destruct r as [v|e]; [exfalso | reflexivity].
      destruct r1, r2, r3; try discriminate Hrej.
      repeat (apply elem_of_cons in Hin as [Hin|Hin]; [discriminate Hin|]).
      by apply elem_of_nil in Hin.
    + intros Hall.
      assert (is_rejected r1 = true ∧ is_rejected r2 = true ∧ is_rejected r3 = true)
        as (H1 & H2 & H3)
        by (repeat split; apply Hall; repeat constructor).
      destruct r1, r2, r3; try discriminate. eauto.
Qed.

Lemma variations_succeed_if_any_does_witness :
  generateVariations (fulfilled sampleDataUrl)
    sampleStoppedReply sampleImageReply (rejected NonError)
  = fulfilled ["data:image/png;base64,QUJD"].
Proof.
  destruct (variations_succeed_if_any_does (fulfilled sampleDataUrl)
              (mkPart (Some (mkInlineData (Some "image/png") (Some "QUJD"))))
              sampleStoppedReply sampleImageReply (rejected NonError) eq_refl)
    as [Hany _].
  destruct Hany as (urls & -> & _ & -> & _).
  - exists (fulfilled "data:image/png;base64,QUJD"). split; [|reflexivity].
    apply list_elem_of_In. right. left. reflexivity.
  - reflexivity.
Defined.

(** ** Further properties of the code *)

Import Editor GeminiCalls Panels Web3Service Session.

(** *** The store: how the operations compose *)

Lemma cursor_inv_nonempty st :
  cursor_inv st → history st ≠ [] →
  (0 ≤ historyIndex st < Z.of_nat (length (history st)))%Z.
Proof. intros [[H _] | [_ H]] Hne; [done | exact H]. Qed.

Lemma append_cells st v :
  cursor_inv st → history st ≠ [] →
  history (append v st) = take (S (Z.to_nat (historyIndex st))) (history st) ++ [v] ∧
  historyIndex (append v st) = (historyIndex st + 1)%Z.
Proof.
  intros Hinv Hne. pose proof (cursor_inv_nonempty st Hinv Hne) as Hi.
  assert (history (append v st)
          = take (S (Z.to_nat (historyIndex st))) (history st) ++ [v]) as Hh.
  { rewrite history_append, slice_prefix by lia. do 2 f_equal. lia. }
  split; [exact Hh|].
  rewrite historyIndex_append, Hh, length_app, length_take. cbn [length]. lia.
Qed.

Lemma index_app_last {A} (l : list A) (v : A) :
  index (l ++ [v]) (Z.of_nat (length l)) = Some v.
Proof.
  unfold index. destruct (Z.ltb_spec (Z.of_nat (length l)) 0); [lia|].
  rewrite Nat2Z.id. by rewrite lookup_app_r, Nat.sub_diag.
Qed.

(** X1. In a session that holds a version, [append] leaves nothing to
    redo; [undo] right after it shows the version that was current before
    the append, and [redo] after that shows the appended version again. *)
Theorem append_then_undo_redo st v :
  cursor_inv st → history st ≠ [] →
  canRedo (append v st) = false ∧
  canUndo (append v st) = true ∧
  historyIndex (undo (append v st)) = historyIndex st ∧
  currentImage (undo (append v st)) = currentImage st ∧
  currentImage (redo (undo (append v st))) = Some v.
Proof.
  intros Hinv Hne. pose proof (cursor_inv_nonempty st Hinv Hne) as Hi.
  destruct (append_cells st v Hinv Hne) as [Hh Hc].
  set (k := Z.to_nat (historyIndex st)) in *.
  assert (length (take (S k) (history st)) = S k) as Hlen.
  { rewrite length_take. lia. }
  assert (canRedo (append v st) = false) as Hr.
  { apply not_true_iff_false. rewrite canRedo_spec, Hc, Hh, length_app, Hlen.
    cbn [length]. lia. }
  assert (canUndo (append v st) = true) as Hu.
  { apply canUndo_spec. lia. }
  assert (historyIndex (undo (append v st)) = historyIndex st) as Hback.
  { rewrite historyIndex_undo, Hu, Hc. lia. }
  assert (canRedo (undo (append v st)) = true) as Hr'.
  { apply canRedo_spec. rewrite Hback, history_undo, Hh, length_app, Hlen.
    cbn [length]. lia. }
  repeat split; try done.
  - unfold currentImage. rewrite Hback, history_undo, Hh.
    rewrite !index_in_range; rewrite ?length_app, ?Hlen; cbn [length]; try lia.
    fold k. rewrite lookup_app_l by lia. apply lookup_take_lt. lia.
  - unfold currentImage.
    rewrite historyIndex_redo, Hr', Hback, history_redo, history_undo, Hh.
    replace (historyIndex st + 1)%Z
      with (Z.of_nat (length (take (S k) (history st)))) by lia.
    apply index_app_last.
Qed.

Lemma append_then_undo_redo_witness :
  currentImage (undo (append (sample 2) sampleSession)) = Some (sample 1) ∧
  currentImage (redo (undo (append (sample 2) sampleSession))) = Some (sample 2).
Proof.
  assert (history sampleSession = [sample 0; sample 1]) as Hh
    by (vm_compute; reflexivity).
  assert (historyIndex sampleSession = 1%Z) as Hi by (vm_compute; reflexivity).
  destruct (append_then_undo_redo sampleSession (sample 2))
    as (_ & _ & _ & Hundo & Hredo).
  - right. rewrite Hh, Hi. split; [done | cbn; lia].
  - by rewrite Hh.
  - split; [|exact Hredo]. rewrite Hundo. unfold currentImage. by rewrite Hh, Hi.
Defined.

Lemma index_zero {A} (l : list A) : index l 0 = l !! 0.
Proof. reflexivity. Qed.

Lemma slice_subseteq {A} (l : list A) i j : slice l i j ⊆ l.
Proof. unfold slice. etrans; [apply subseteq_take | apply subseteq_drop]. Qed.

Lemma render_in_run start past age :
  render start past age ∈ past ∨ render start past age = start.
Proof.
  unfold render. destruct (nth_in_or_default age past start) as [Hin | Hd].
  - left. by apply list_elem_of_In.
  - by right.
Qed.

Lemma append_keeps_origin r v st :
  cursor_inv r → history r ≠ [] →
  cursor_inv (addImageToHistory r v st) ∧
  history (addImageToHistory r v st) ≠ [] ∧
  originalImage (addImageToHistory r v st) = originalImage r.
Proof.
  intros Hinv Hne. pose proof (cursor_inv_nonempty r Hinv Hne) as Hi.
  split; [apply cursor_inv_addImageToHistory|].
  unfold originalImage. rewrite !index_zero, history_addImageToHistory.
  rewrite slice_prefix by lia. split.
  - intros H. by apply app_nil in H as [_ ?].
  - rewrite lookup_app_l by (rewrite length_take; lia).
    apply lookup_take_lt. lia.
Qed.

Lemma move_keeps_session start past m :
  cursor_inv start → history start ≠ [] →
  Forall (λ s, cursor_inv s ∧ history s ≠ [] ∧
               originalImage s = originalImage start) past →
  cursor_inv (move start past m) ∧ history (move start past m) ≠ [] ∧
  originalImage (move start past m) = originalImage start.
Proof.
  intros Hinv Hne Hpast.
  assert (∀ age, cursor_inv (render start past age) ∧
                 history (render start past age) ≠ [] ∧
                 originalImage (render start past age) = originalImage start)
    as Hrender.
  { intros age. destruct (render_in_run start past age) as [Hin | ->]; [|done].
    rewrite Forall_forall in Hpast. by apply Hpast. }
  destruct (Hrender 0) as (Hinv0 & Hne0 & Ho0).
  destruct m as [age v| | |]; unfold move; cbn beta iota zeta.
  - destruct (Hrender age) as (Hinva & Hnea & Hoa).
    destruct (append_keeps_origin (render start past age) v
                (render start past 0) Hinva Hnea) as (Hinv' & Hne' & Ho').
    split; [exact Hinv'|]. split; [exact Hne'|]. by rewrite Ho'.
  - unfold originalImage in *. rewrite history_undo. auto using cursor_inv_undo.
  - unfold originalImage in *. rewrite history_redo. auto using cursor_inv_redo.
  - unfold originalImage in *. rewrite history_reset. auto using cursor_inv_reset.
Qed.

Lemma run_keeps_session ms start :
  cursor_inv start → history start ≠ [] →
  ∀ past,
    Forall (λ s, cursor_inv s ∧ history s ≠ [] ∧
                 originalImage s = originalImage start) past →
    Forall (λ s, cursor_inv s ∧ history s ≠ [] ∧
                 originalImage s = originalImage start) (run ms start past).
Proof.
  intros Hinv Hne. induction ms as [|m ms IH]; intros past Hpast; [done|].
  cbn [run]. apply IH. constructor; [|exact Hpast].
  by apply move_keeps_session.
Qed.

(** X2. The original of a session never changes. In a run of appends,
    undos, redos and resets that begins in a state holding a version,
    [originalImage] stays the one it was and the session keeps holding a
    version, also when an edit is appended by a continuation that closes
    over an earlier render of the run, after undos or other edits made
    while it was pending. The run is the session: an edit started in it
    that completes after an upload brings its original back, whatever was
    uploaded. *)
Theorem original_image_is_stable ms : ∀ st,
  cursor_inv st → history st ≠ [] →
  originalImage (moves ms st) = originalImage st ∧
  history (moves ms st) ≠ [] ∧
  cursor_inv (moves ms st) ∧
  (∀ v w other,
     originalImage (addImageToHistory (moves ms st) v (load w other))
     = originalImage st).
Proof.
  intros st Hinv Hne.
  pose proof (run_keeps_session ms st Hinv Hne [] (Forall_nil_2 _)) as Hrun.
  assert (cursor_inv (moves ms st) ∧ history (moves ms st) ≠ [] ∧
          originalImage (moves ms st) = originalImage st) as (Hi & Hn & Ho).
  { unfold moves.
    destruct (render_in_run st (run ms st []) 0) as [Hin | ->]; [|done].
    rewrite Forall_forall in Hrun. by apply Hrun. }
  split; [exact Ho|]. split; [exact Hn|]. split; [exact Hi|].
  intros v w other.
  destruct (append_keeps_origin (moves ms st) v (load w other) Hi Hn)
    as (_ & _ & Ho').
  by rewrite Ho'.
Qed.

Lemma original_image_is_stable_witness :
  originalImage (moves [Append 0 (sample 2); Undo; Undo; Append 2 (sample 3); Reset]
                   sampleSession)
  = Some (sample 0).
Proof.
  assert (history sampleSession = [sample 0; sample 1]) as Hh
    by (vm_compute; reflexivity).
  assert (historyIndex sampleSession = 1%Z) as Hi by (vm_compute; reflexivity).
  destruct (original_image_is_stable
              [Append 0 (sample 2); Undo; Undo; Append 2 (sample 3); Reset]
              sampleSession) as (Ho & _ & _).
  - right. rewrite Hh, Hi. split; [done | cbn; lia].
  - by rewrite Hh.
  - rewrite Ho. unfold originalImage. by rewrite Hh.
Defined.

Lemma run_versions_origin f ms start : ∀ past s,
  s ∈ run ms start past ∨ s = start → f ∈ history s →
  (∃ s0, (s0 ∈ past ∨ s0 = start) ∧ f ∈ history s0) ∨
  (∃ age, Append age f ∈ ms).
Proof.
  induction ms as [|m ms IH]; intros past s Hs Hf; [left; by exists s|].
  cbn [run] in Hs.
  destruct (IH _ _ Hs Hf) as [(s0 & Hs0 & Hf0) | (age & Hin)].
  2:{ right. exists age. by right. }
  destruct Hs0 as [Hs0 | ->]; [|left; exists start; auto].
  apply elem_of_cons in Hs0 as [-> | Hs0]; [|left; exists s0; auto].
  destruct m as [age v| | |]; unfold move in Hf0; cbn beta iota zeta in Hf0.
  - rewrite history_addImageToHistory in Hf0.
    apply elem_of_app in Hf0 as [Hf0 | Hf0].
    + left. exists (render start past age). split; [apply render_in_run|].
      by apply (slice_subseteq (history (render start past age)) 0
                  (historyIndex (render start past age) + 1)).
    + apply list_elem_of_singleton in Hf0 as ->. right. exists age. by left.
  - rewrite history_undo in Hf0. left. exists (render start past 0).
    split; [apply render_in_run | done].
  - rewrite history_redo in Hf0. left. exists (render start past 0).
    split; [apply render_in_run | done].
  - rewrite history_reset in Hf0. left. exists (render start past 0).
    split; [apply render_in_run | done].
Qed.

Lemma moves_versions_origin f ms st :
  f ∈ history (moves ms st) → f ∈ history st ∨ ∃ age, Append age f ∈ ms.
Proof.
  intros Hf.
  destruct (run_versions_origin f ms st [] (moves ms st)) as [(s0 & Hs0 & Hf0) | Hin].
  - apply render_in_run.
  - exact Hf.
  - destruct Hs0 as [Hs0 | ->]; [by apply elem_of_nil in Hs0 | by left].
  - by right.
Qed.

(** X3. Versions come back only through an edit that was pending. After
    an upload [load v], in a run of appends, undos, redos and resets
    whose appends close over renders since the upload, every version the
    store holds is [v] or was appended since; after [discard], every
    version was appended since. An edit started before the upload or the
    discard and completed after it is another matter: it brings back the
    versions of the render it was started in, up to its cursor. *)
Theorem only_pending_edits_bring_versions_back st v ms f :
  (f ∈ history (moves ms (load v st)) → f = v ∨ ∃ age, Append age f ∈ ms) ∧
  (f ∈ history (moves ms (discard st)) → ∃ age, Append age f ∈ ms) ∧
  (∀ r old,
     old ∈ slice (history r) 0 (historyIndex r + 1) →
     old ∈ history (addImageToHistory r f (load v st)) ∧
     old ∈ history (addImageToHistory r f (discard st))).
Proof.
  split; [|split].
  - intros Hf. apply moves_versions_origin in Hf as [Hf | Hf]; [|by right].
    rewrite history_load in Hf. apply list_elem_of_singleton in Hf. by left.
  - intros Hf. apply moves_versions_origin in Hf as [Hf | Hf]; [|done].
    rewrite history_discard in Hf. by apply elem_of_nil in Hf.
  - intros r old Hold. rewrite !history_addImageToHistory.
    split; apply elem_of_app; by left.
Qed.

Lemma only_pending_edits_bring_versions_back_witness :
  history (moves [Undo; Append 1 (sample 3); Reset] (load (sample 9) sampleSession))
  = [sample 9; sample 3] ∧
  (sample 3 = sample 9 ∨
   ∃ age, Append age (sample 3) ∈ [Undo; Append 1 (sample 3); Reset]) ∧
  sample 0 ∈ history (addImageToHistory sampleSession (sample 3)
                        (load (sample 9) sampleSession)).
Proof.
  assert (history (moves [Undo; Append 1 (sample 3); Reset]
                     (load (sample 9) sampleSession))
          = [sample 9; sample 3]) as Hh by (vm_compute; reflexivity).
  destruct (only_pending_edits_bring_versions_back sampleSession (sample 9)
              [Undo; Append 1 (sample 3); Reset] (sample 3))
    as (Hsince & _ & Hback).
  split; [exact Hh|]. split.
  - apply Hsince. rewrite Hh. right. by left.
  - assert (sample 0 ∈ slice (history sampleSession) 0
                         (historyIndex sampleSession + 1)) as Hold.
    { replace (history sampleSession) with [sample 0; sample 1]
        by (vm_compute; reflexivity).
      replace (historyIndex sampleSession) with 1%Z by (vm_compute; reflexivity).
      by left. }
    exact (proj1 (Hback sampleSession (sample 0) Hold)).
Defined.

Lemma undo_iter_history k st : history (Nat.iter k undo st) = history st.
Proof. induction k as [|k IH]; [done|]. by rewrite Nat.iter_succ, history_undo. Qed.

Lemma undo_iter_index k : ∀ st,
  (0 ≤ historyIndex st)%Z →
  historyIndex (Nat.iter k undo st) = Z.max 0 (historyIndex st - Z.of_nat k).
Proof.
  induction k as [|k IH]; intros st H0.
  - change (Nat.iter 0 undo st) with st. lia.
  - rewrite Nat.iter_succ, historyIndex_undo, IH by lia.
    destruct (canUndo (Nat.iter k undo st)) eqn:E.
    + apply canUndo_spec in E. rewrite IH in E by lia. lia.
    + apply not_true_iff_false in E. rewrite canUndo_spec, IH in E by lia. lia.
Qed.

Lemma redo_iter_index_clamped k : ∀ st,
  (historyIndex st < Z.of_nat (length (history st)))%Z →
  historyIndex (Nat.iter k redo st)
  = Z.min (Z.of_nat (length (history st)) - 1) (historyIndex st + Z.of_nat k).
Proof.
  induction k as [|k IH]; intros st Hi.
  - change (Nat.iter 0 redo st) with st. lia.
  - rewrite Nat.iter_succ, historyIndex_redo, IH by lia.
    destruct (canRedo (Nat.iter k redo st)) eqn:E.
    + apply canRedo_spec in E. rewrite redo_iter_history, IH in E by lia. lia.
    + apply not_true_iff_false in E.
      rewrite canRedo_spec, redo_iter_history, IH in E by lia. lia.
Qed.

(** X4. The cursor moves one step at a time and stops at the ends: in a
    session that holds a version, [k] undos put the cursor on
    [max 0 (cursor - k)] and [k] redos on [min (length - 1) (cursor + k)],
    the versions staying as they are; as many undos as the cursor is high
    lead where [reset] leads, to the original. *)
Theorem cursor_stops_at_the_ends st k :
  cursor_inv st → history st ≠ [] →
  historyIndex (Nat.iter k undo st) = Z.max 0 (historyIndex st - Z.of_nat k) ∧
  historyIndex (Nat.iter k redo st)
    = Z.min (Z.of_nat (length (history st)) - 1) (historyIndex st + Z.of_nat k) ∧
  history (Nat.iter k undo st) = history st ∧
  history (Nat.iter k redo st) = history st ∧
  historyIndex (Nat.iter (Z.to_nat (historyIndex st)) undo st)
    = historyIndex (reset st) ∧
  currentImage (Nat.iter (Z.to_nat (historyIndex st)) undo st) = originalImage st.
Proof.
  intros Hinv Hne. pose proof (cursor_inv_nonempty st Hinv Hne) as Hi.
  assert (historyIndex (Nat.iter (Z.to_nat (historyIndex st)) undo st) = 0%Z) as H0.
  { rewrite undo_iter_index by lia. lia. }
  split; [apply undo_iter_index; lia|].
  split; [apply redo_iter_index_clamped; lia|].
  split; [apply undo_iter_history|]. split; [apply redo_iter_history|].
  split.
  - rewrite H0, historyIndex_reset.
    destruct (history st); [done | reflexivity].
  - unfold currentImage, originalImage. by rewrite H0, undo_iter_history.
Qed.

Lemma cursor_stops_at_the_ends_witness :
  historyIndex (Nat.iter 5 undo sampleSession) = 0%Z ∧
  historyIndex (Nat.iter 5 redo sampleSession) = 1%Z.
Proof.
  assert (history sampleSession = [sample 0; sample 1]) as Hh
    by (vm_compute; reflexivity).
  assert (historyIndex sampleSession = 1%Z) as Hi by (vm_compute; reflexivity).
  destruct (cursor_stops_at_the_ends sampleSession 5) as (Hu & Hr & _).
  - right. rewrite Hh, Hi. split; [done | cbn; lia].
  - by rewrite Hh.
  - rewrite Hu, Hr, Hh, Hi. split; reflexivity.
Defined.

(** X5. In a state that satisfies the cursor invariant, an image is
    displayed exactly when the store holds a version, the displayed image
    is one of the versions, and the original is the first version. *)
Theorem current_image_is_a_version st :
  cursor_inv st →
  (currentImage st = None ↔ history st = []) ∧
  (∀ f, currentImage st = Some f → f ∈ history st) ∧
  originalImage st = head (history st).
Proof.
  intros Hinv. unfold currentImage, originalImage. split; [|split].
  - destruct Hinv as [[Hh Hi] | [Hne Hi]].
    + rewrite Hh, Hi. done.
    + rewrite index_in_range by lia. split; [|done].
      intros Hnone. apply lookup_ge_None in Hnone. lia.
  - intros f Hf. unfold index in Hf.
    destruct (historyIndex st <? 0)%Z; [discriminate|].
    by apply list_elem_of_lookup_2 in Hf.
  - rewrite index_zero. by destruct (history st).
Qed.

Lemma current_image_is_a_version_witness :
  currentImage sampleSession = Some (sample 1) ∧
  sample 1 ∈ history sampleSession.
Proof.
  assert (history sampleSession = [sample 0; sample 1]) as Hh
    by (vm_compute; reflexivity).
  assert (historyIndex sampleSession = 1%Z) as Hi by (vm_compute; reflexivity).
  assert (currentImage sampleSession = Some (sample 1)) as Hc.
  { unfold currentImage. by rewrite Hh, Hi. }
  split; [exact Hc|].
  apply (current_image_is_a_version sampleSession); [|exact Hc].
  right. rewrite Hh, Hi. split; [done | cbn; lia].
Defined.

(** *** Credits *)

Lemma checkCredits_pass r cost :
  fst (checkCredits r cost) = true ↔ isPro r = true ∨ (cost ≤ credits r)%Z.
Proof.
  unfold checkCredits. destruct (isPro r); [naive_solver|].
  destruct (Z.geb_spec (credits r) cost); cbn [fst]; split; try done.
  - intros _. right. lia.
  - intros [? | ?]; [done | lia].
Qed.

Lemma checkCredits_short r cost :
  isPro r = false → (credits r < cost)%Z →
  checkCredits r cost = (false, setShowLimitModal true).
Proof.
  intros Hpro Hshort. unfold checkCredits. rewrite Hpro.
  destruct (Z.geb_spec (credits r) cost); [lia | done].
Qed.

Lemma deductCredits_pro r cost : isPro r = true → deductCredits r cost = skip.
Proof. intros Hpro. unfold deductCredits. by rewrite Hpro. Qed.

Lemma deductCredits_cells r cost st :
  isPro r = false →
  credits (deductCredits r cost st) = (credits r - cost)%Z ∧
  localStorage_getItem "bw_credits" (deductCredits r cost st)
    = Some (toString (credits r - cost)) ∧
  history (deductCredits r cost st) = history st ∧
  historyIndex (deductCredits r cost st) = historyIndex st.
Proof.
  intros Hpro. unfold deductCredits. rewrite Hpro. run_setters.
  repeat split; try reflexivity. apply lookup_insert_eq.
Qed.

(** X6. A charge that follows a passed credit check never overdraws: for
    an account that is not pro the credits become [credits - cost], which
    is not negative, and the stored ["bw_credits"] is the decimal text of
    the new credits; a pro account is not charged at all. The check
    itself writes nothing when it passes. *)
Theorem charge_after_check_never_overdraws r cost modal st :
  checkCredits r cost = (true, modal) →
  modal = skip ∧
  (isPro r = true → deductCredits r cost st = st) ∧
  (isPro r = false →
     credits (deductCredits r cost st) = (credits r - cost)%Z ∧
     (0 ≤ credits (deductCredits r cost st))%Z ∧
     localStorage_getItem "bw_credits" (deductCredits r cost st)
       = Some (toString (credits (deductCredits r cost st)))).
Proof.
  intros Hcheck.
  assert (isPro r = true ∨ (cost ≤ credits r)%Z) as Hpass.
  { apply checkCredits_pass. by rewrite Hcheck. }
  split; [by apply (checkCredits_enough r cost)|]. split.
  - intros Hpro. by rewrite deductCredits_pro.
  - intros Hpro. destruct Hpass as [? | Hle]; [congruence|].
    destruct (deductCredits_cells r cost st Hpro) as (Hc & Hs & _).
    rewrite Hc. repeat split; [lia | exact Hs].
Qed.

Lemma charge_after_check_never_overdraws_witness :
  credits (deductCredits sampleSession 5 sampleSession) = 0%Z ∧
  localStorage_getItem "bw_credits" (deductCredits sampleSession 5 sampleSession)
  = Some "0".
Proof.
  assert (isPro sampleSession = false) as Hpro by (vm_compute; reflexivity).
  assert (credits sampleSession = 5%Z) as Hc by (vm_compute; reflexivity).
  assert (checkCredits sampleSession 5 = (true, skip)) as Hcheck.
  { unfold checkCredits. by rewrite Hpro, Hc. }
  destruct (charge_after_check_never_overdraws sampleSession 5 skip sampleSession
              Hcheck) as (_ & _ & Hcharge).
  destruct (Hcharge Hpro) as (Hnew & _ & Hstored).
  rewrite Hstored, Hnew, Hc. split; reflexivity.
Defined.

(** X7. After [handleUpgrade] every credit check passes and no charge
    changes anything: the account is pro, holds 9999 credits, the stored
    ["bw_is_pro"] is ["true"], the limit dialog is closed, and the
    versions and the cursor are those of before. *)
Theorem upgrade_lifts_the_limit st cost st' :
  checkCredits (handleUpgrade st) cost = (true, skip) ∧
  deductCredits (handleUpgrade st) cost st' = st' ∧
  isPro (handleUpgrade st) = true ∧
  credits (handleUpgrade st) = 9999%Z ∧
  localStorage_getItem "bw_is_pro" (handleUpgrade st) = Some "true" ∧
  showLimitModal (handleUpgrade st) = false ∧
  history (handleUpgrade st) = history st ∧
  historyIndex (handleUpgrade st) = historyIndex st.
Proof.
  assert (isPro (handleUpgrade st) = true) as Hpro by reflexivity.
  split; [unfold checkCredits; by rewrite Hpro|].
  split; [by rewrite deductCredits_pro|].
  split; [exact Hpro|].
  unfold handleUpgrade. run_setters.
  repeat split; try reflexivity. apply lookup_insert_eq.
Qed.

(** *** The handlers that call the service *)

(** Opens one of the five handlers of [edit_handlers] that is known, by
    [H], to have issued its call: the guards are decided and [before],
    [call] and [resume] replaced by what the handler gives. *)
Ltac open_handler H :=
  cbn [fst snd] in H;
  unfold handleApplyHarmonize, handleDoTheMagic, handleApplyFilter,
    handleApplyAdjustment, handleApplyInfographic in H;
  match type of H with context [currentImage ?r] =>
    let displayed := fresh "displayed" in
    destruct (currentImage r) as [displayed|]; [|discriminate H];
    destruct (loadingTab r); [discriminate H|];
    let enough := fresh "enough" in
    let modal := fresh "modal" in
    let Hcredits := fresh "Hcredits" in
    destruct (checkCredits r COST_IMAGE_GEN) as [enough modal] eqn:Hcredits;
    destruct enough; [|discriminate H]; cbn [negb] in H;
    apply checkCredits_enough in Hcredits as ->;
    injection H as <- <- <-
  end.

(** Runs the updates of a handler down to the cells. *)
Ltac run_handler :=
  cbn beta iota;
  unfold addImageToHistory, deductCredits;
  run_setters.

Lemma appended_is_current r file st' :
  history st' = slice (history r) 0 (historyIndex r + 1) ++ [file] →
  historyIndex st' = (Z.of_nat (length (history st')) - 1)%Z →
  currentImage st' = Some file.
Proof.
  intros Hh Hi. unfold currentImage. rewrite Hi, Hh, length_app. cbn [length].
  replace (Z.of_nat (length (slice (history r) 0 (historyIndex r + 1)) + 1) - 1)%Z
    with (Z.of_nat (length (slice (history r) 0 (historyIndex r + 1)))) by lia.
  apply index_app_last.
Qed.

Section ServiceHandlers.
Variable atob : string → Settled string.
Variables (filterPrompt adjustmentPrompt : string).
Variables (infographicPrompt infographicData : string).
Variable overlayImage : option File.

(** X8. A failed edit never touches the history, whichever of the five
    handlers made the call (harmonize, magic fix, filter, adjustment,
    infographic): when the call is rejected, or answers with something
    [dataURLtoFile] cannot read, the versions, the cursor and the credits
    are what they were, an error message is set and the loading flag is
    released. *)
Theorem failed_edits_leave_history entry r before call resume :
  entry ∈ edit_handlers atob filterPrompt adjustmentPrompt
            infographicPrompt infographicData overlayImage →
  entry.2 r = Pending before call resume →
  ∀ reply now st err,
    (reply = rejected err ∨
     ∃ url, reply = fulfilled url ∧
       dataURLtoFile atob url (entry.1.1 +:+ toString now +:+ ".png")
       = rejected err) →
    let st' := resume (reply, now) st in
    history st' = history st ∧
    historyIndex st' = historyIndex st ∧
    credits st' = credits st ∧
    localStorage st' = localStorage st ∧
    (∃ text, error st' = Some (text +:+ errorMessage err)) ∧
    loadingTab st' = None ∧
    history (finish (entry.2 r) (reply, now) st) = history st ∧
    historyIndex (finish (entry.2 r) (reply, now) st) = historyIndex st.
Proof.
  unfold edit_handlers. intros Hin Hcall reply now st err Hfail.
  rewrite Hcall. unfold finish.
  repeat (apply elem_of_cons in Hin as [-> | Hin]);
    [.. | by apply elem_of_nil in Hin];
    open_handler Hcall;
    (destruct Hfail as [-> | (url & -> & Hurl)];
     [| cbn [fst snd] in Hurl; cbn beta iota; rewrite Hurl]);
    run_handler; repeat split; eauto.
Qed.

(** X9. A successful edit appends exactly one version, whichever of the
    five handlers made the call: the versions become those of the render
    that made the call, up to its cursor, followed by the new file, which
    is named after the handler and the clock; the cursor is on the new
    file; one credit is charged unless the account is pro; the loading
    flag, set to the tab of the handler while the call was pending, is
    released. *)
Theorem successful_edits_append_one_version entry r before call resume :
  entry ∈ edit_handlers atob filterPrompt adjustmentPrompt
            infographicPrompt infographicData overlayImage →
  entry.2 r = Pending before call resume →
  ∀ url now file st,
    dataURLtoFile atob url (entry.1.1 +:+ toString now +:+ ".png")
    = fulfilled file →
    let st' := resume (fulfilled url, now) st in
    name file = entry.1.1 +:+ toString now +:+ ".png" ∧
    history st' = slice (history r) 0 (historyIndex r + 1) ++ [file] ∧
    historyIndex st' = (Z.of_nat (length (history st')) - 1)%Z ∧
    currentImage st' = Some file ∧
    credits st' = (if isPro r then credits st else credits r - 1)%Z ∧
    loadingTab (before st) = Some entry.1.2 ∧
    loadingTab st' = None.
Proof.
  unfold edit_handlers. intros Hin Hcall url now file st Hfile.
  assert (name file = entry.1.1 +:+ toString now +:+ ".png") as Hname.
  { revert Hfile. unfold dataURLtoFile.
    repeat (case_match; try discriminate). by intros [= <-]. }
  split; [exact Hname|].
  repeat (apply elem_of_cons in Hin as [-> | Hin]);
    [.. | by apply elem_of_nil in Hin];
    open_handler Hcall; cbn [fst snd] in Hfile; cbn beta iota; rewrite Hfile;
    unfold deductCredits; destruct (isPro r);
    (split; [reflexivity|]); (split; [reflexivity|]);
    (split; [by apply (appended_is_current r)|]);
    repeat split; reflexivity.
Qed.

End ServiceHandlers.

Lemma sample_filter_pending :
  ∃ before call resume,
    handleApplyFilter (λ s, fulfilled s) sampleSession "film noir"
    = Pending before call resume.
Proof.
  unfold handleApplyFilter.
  replace (currentImage sampleSession) with (Some (sample 1))
    by (vm_compute; reflexivity).
  replace (loadingTab sampleSession) with (@None Tab) by (vm_compute; reflexivity).
  replace (checkCredits sampleSession COST_IMAGE_GEN) with (true, skip)
    by (unfold checkCredits;
        replace (isPro sampleSession) with false by (vm_compute; reflexivity);
        replace (credits sampleSession) with 5%Z by (vm_compute; reflexivity);
        reflexivity).
  cbn [negb]. eauto.
Qed.

Lemma failed_edits_leave_history_witness :
  ∃ before call resume,
    handleApplyFilter (λ s, fulfilled s) sampleSession "film noir"
    = Pending before call resume ∧
    history (resume (rejected (ErrorObj "quota exceeded"), 17%Z) sampleSession)
    = history sampleSession.
Proof.
  destruct sample_filter_pending as (before & call & resume & Hcall).
  exists before, call, resume. split; [exact Hcall|].
  destruct (failed_edits_leave_history (λ s, fulfilled s)
              "film noir" "warmer" "bar chart" "1,2,3" None
              ("filtered-", Tab_filters,
               λ r, handleApplyFilter (λ s, fulfilled s) r "film noir")
              sampleSession before call resume)
    with (reply := @rejected string (ErrorObj "quota exceeded"))
         (now := 17%Z) (st := sampleSession)
         (err := ErrorObj "quota exceeded")
    as (Hh & _).
  - unfold edit_handlers. do 2 right. left.
  - exact Hcall.
  - by left.
  - exact Hh.
Defined.

Lemma successful_edits_append_one_version_witness :
  ∃ before call resume,
    handleApplyFilter (λ s, fulfilled s) sampleSession "film noir"
    = Pending before call resume ∧
    history (resume (fulfilled sampleDataUrl, 17%Z) sampleSession)
    = [sample 0; sample 1; mkFile [81; 85; 74; 68]%Z "filtered-17.png" "image/png"].
Proof.
  destruct sample_filter_pending as (before & call & resume & Hcall).
  exists before, call, resume. split; [exact Hcall|].
  destruct (successful_edits_append_one_version (λ s, fulfilled s)
              "film noir" "warmer" "bar chart" "1,2,3" None
              ("filtered-", Tab_filters,
               λ r, handleApplyFilter (λ s, fulfilled s) r "film noir")
              sampleSession before call resume)
    with (url := sampleDataUrl) (now := 17%Z)
         (file := mkFile [81; 85; 74; 68]%Z "filtered-17.png" "image/png")
         (st := sampleSession)
    as (_ & Hh & _).
  - unfold edit_handlers. do 2 right. left.
  - exact Hcall.
  - vm_compute. reflexivity.
  - rewrite Hh.
    replace (history sampleSession) with [sample 0; sample 1]
      by (vm_compute; reflexivity).
    replace (historyIndex sampleSession) with 1%Z by (vm_compute; reflexivity).
    reflexivity.
Defined.

Lemma checkCredits_true r cost modal :
  checkCredits r cost = (true, modal) → isPro r = true ∨ (cost ≤ credits r)%Z.
Proof. intros H. apply checkCredits_pass. by rewrite H. Qed.

Section Guards.
Variable atob : string → Settled string.
Variables (filterPrompt adjustmentPrompt : string).
Variables (infographicPrompt infographicData : string).
Variable overlayImage : option File.
Variable variationPrompt : string.

(** X10. Seven handlers of the editor call the service only from a
    render in which an image is displayed, no other operation is in
    flight, and the account is pro or holds the credits the call costs:
    [handleGenerate], [handleApplyHarmonize], [handleDoTheMagic],
    [handleApplyFilter], [handleApplyAdjustment], [handleApplyInfographic]
    (one credit each) and [handleGenerateVariations] (three). The image
    they send is the displayed one. [handleGenerate] moreover needs a
    prompt that is not blank and a hotspot, and sends both. The handlers
    of the animation, of the characters and of the text-to-image screen
    are not among the seven. *)
Theorem calls_are_guarded r :
  (∀ before request resume,
     handleGenerate atob r = Await before request resume →
     ∃ image hotspot,
       may_call r COST_IMAGE_GEN image ∧
       truthy (trim (prompt r)) = true ∧ editHotspot r = Some hotspot ∧
       request = GenerateEditedImage image (prompt r) hotspot (retouchImage r)) ∧
  (∀ entry before call resume,
     entry ∈ edit_handlers atob filterPrompt adjustmentPrompt
               infographicPrompt infographicData overlayImage →
     entry.2 r = Pending before call resume →
     ∃ image, may_call r COST_IMAGE_GEN image ∧
       call ∈ [ HarmonizeImage image; FixImageComposition image;
                GenerateFilteredImage image filterPrompt;
                GenerateAdjustedImage image adjustmentPrompt;
                GenerateInfographicImage image infographicPrompt
                  infographicData overlayImage (editHotspot r) ]) ∧
  (∀ before call resume,
     handleGenerateVariations r variationPrompt = Pending before call resume →
     ∃ image, may_call r (COST_IMAGE_GEN * 3) image ∧
       call = GenerateVariations image variationPrompt).
Proof.
  unfold may_call. split; [|split].
  - intros before request resume. unfold handleGenerate.
    destruct (currentImage r) as [image|]; [|discriminate].
    destruct (loadingTab r); [discriminate|].
    destruct (checkCredits r COST_IMAGE_GEN) as [enough modal] eqn:Hcredits.
    destruct enough; [|discriminate]. cbn [negb].
    apply checkCredits_true in Hcredits.
    destruct (truthy (trim (prompt r))); [|discriminate]. cbn [negb].
    destruct (editHotspot r) as [hotspot|]; [|discriminate].
    intros [= <- <- <-]. by exists image, hotspot.
  - unfold edit_handlers. intros entry before call resume Hin.
    repeat (apply elem_of_cons in Hin as [-> | Hin]);
      [.. | by apply elem_of_nil in Hin];
      cbn [fst snd];
      unfold handleApplyHarmonize, handleDoTheMagic, handleApplyFilter,
        handleApplyAdjustment, handleApplyInfographic;
      (destruct (currentImage r) as [image|]; [|discriminate]);
      (destruct (loadingTab r); [discriminate|]);
      destruct (checkCredits r COST_IMAGE_GEN) as [enough modal] eqn:Hcredits;
      (destruct enough; [|discriminate]); cbn [negb];
      apply checkCredits_true in Hcredits;
      intros [= <- <- <-]; exists image; (split; [done|]).
    + by left.
    + right. by left.
    + do 2 right. by left.
    + do 3 right. by left.
    + do 4 right. by left.
  - intros before call resume. unfold handleGenerateVariations.
    destruct (currentImage r) as [image|]; [|discriminate].
    destruct (loadingTab r); [discriminate|].
    destruct (checkCredits r (COST_IMAGE_GEN * 3)) as [enough modal] eqn:Hcredits.
    destruct enough; [|discriminate]. cbn [negb].
    apply checkCredits_true in Hcredits.
    intros [= <- <- <-]. by exists image.
Qed.

(** X11. An account that is not pro and is short of credits gets the
    limit dialog and nothing else: with an image displayed and no
    operation in flight, each handler returns after opening the dialog,
    without a call; [onImageGenerated] drops the image it was given. The
    credit check comes before the checks of the prompt and the hotspot. *)
Theorem short_of_credits_opens_the_dialog r image :
  currentImage r = Some image → loadingTab r = None → isPro r = false →
  ((credits r < COST_IMAGE_GEN)%Z →
     handleGenerate atob r = Return (setShowLimitModal true) ∧
     (∀ entry,
        entry ∈ edit_handlers atob filterPrompt adjustmentPrompt
                  infographicPrompt infographicData overlayImage →
        entry.2 r = Finished (setShowLimitModal true)) ∧
     (∀ file, onImageGenerated r file = setShowLimitModal true)) ∧
  ((credits r < COST_IMAGE_GEN * 3)%Z →
     handleGenerateVariations r variationPrompt
     = Finished (setShowLimitModal true)).
Proof.
  intros Himage Hidle Hpro. split.
  - intros Hshort.
    pose proof (checkCredits_short r COST_IMAGE_GEN Hpro Hshort) as Hcheck.
    split; [|split].
    + unfold handleGenerate. by rewrite Himage, Hidle, Hcheck.
    + unfold edit_handlers. intros entry Hin.
      repeat (apply elem_of_cons in Hin as [-> | Hin]);
        [.. | by apply elem_of_nil in Hin];
        cbn [fst snd];
        unfold handleApplyHarmonize, handleDoTheMagic, handleApplyFilter,
          handleApplyAdjustment, handleApplyInfographic;
        by rewrite Himage, Hidle, Hcheck.
    + intros file. unfold onImageGenerated. by rewrite Hcheck.
  - intros Hshort.
    pose proof (checkCredits_short r (COST_IMAGE_GEN * 3) Hpro Hshort) as Hcheck.
    unfold handleGenerateVariations. by rewrite Himage, Hidle, Hcheck.
Qed.

End Guards.

Lemma guards_witness_state :
  currentImage sampleSession = Some (sample 1) ∧
  loadingTab sampleSession = None ∧ isPro sampleSession = false ∧
  credits sampleSession = 5%Z.
Proof. repeat split; vm_compute; reflexivity. Qed.

Lemma calls_are_guarded_witness :
  ∃ image, may_call sampleSession COST_IMAGE_GEN image.
Proof.
  destruct sample_filter_pending as (before & call & resume & Hcall).
  destruct (proj1 (proj2 (calls_are_guarded (λ s, fulfilled s)
              "film noir" "warmer" "bar chart" "1,2,3" None "anime" sampleSession))
              ("filtered-", Tab_filters,
               λ r, handleApplyFilter (λ s, fulfilled s) r "film noir")
              before call resume) as (image & Hguard & _).
  - unfold edit_handlers. do 2 right. left.
  - exact Hcall.
  - by exists image.
Defined.

Lemma short_of_credits_opens_the_dialog_witness :
  handleGenerate (λ s, fulfilled s) sampleBroke = Return (setShowLimitModal true) ∧
  handleGenerateVariations sampleBroke "anime" = Finished (setShowLimitModal true).
Proof.
  destruct (short_of_credits_opens_the_dialog (λ s, fulfilled s)
              "film noir" "warmer" "bar chart" "1,2,3" None "anime"
              sampleBroke (sample 1)) as [Hone Hthree];
    try (vm_compute; reflexivity).
  split.
  - apply Hone. vm_compute. reflexivity.
  - apply Hthree. vm_compute. reflexivity.
Defined.

Section MoreHandlers.
Variable atob : string → Settled string.

(** X12. A successful retouch: when the call of [handleGenerate] answers
    with a data URL that [dataURLtoFile] reads, the versions become those
    of the render that made the call, up to its cursor, followed by the
    file ["edited-<clock>.png"], which is displayed; the hotspot, the
    retouch image, the crop rectangle and the variation candidates are
    cleared, one credit is charged unless the account is pro, and the
    loading flag is released. *)
Theorem successful_retouch r before request resume :
  handleGenerate atob r = Await before request resume →
  ∀ url now file st,
    dataURLtoFile atob url ("edited-" +:+ toString now +:+ ".png")
    = fulfilled file →
    let st' := resume (fulfilled url) now st in
    history st' = slice (history r) 0 (historyIndex r + 1) ++ [file] ∧
    historyIndex st' = (Z.of_nat (length (history st')) - 1)%Z ∧
    currentImage st' = Some file ∧
    hotspot_cleared st' ∧ crop_cleared st' ∧ candidates_cleared st' ∧
    retouchImage st' = None ∧
    credits st' = (if isPro r then credits st else credits r - 1)%Z ∧
    error st' = error st ∧
    loadingTab (before st) = Some Tab_retouch ∧
    loadingTab st' = None.
Proof.
  intros Hcall url now file st Hfile. revert Hcall.
  unfold handleGenerate.
  destruct (currentImage r) as [image|]; [|discriminate].
  destruct (loadingTab r); [discriminate|].
  destruct (checkCredits r COST_IMAGE_GEN) as [enough modal] eqn:Hcredits.
  destruct enough; [|discriminate]. cbn [negb].
  apply checkCredits_enough in Hcredits as ->.
  destruct (negb (truthy (trim (prompt r)))); [discriminate|].
  destruct (editHotspot r) as [hotspot|]; [|discriminate].
  intros [= <- <- <-]. cbn beta iota zeta. rewrite Hfile.
  unfold deductCredits. destruct (isPro r);
    (split; [reflexivity|]); (split; [reflexivity|]);
    (split; [by apply (appended_is_current r)|]);
    repeat split; reflexivity.
Qed.

(** X13. [handleGenerateVariations] never writes the versions or the
    cursor, however its call ends. The candidates of an earlier run are
    cleared before the call; a fulfilled call stores the new candidates
    with none selected and charges three credits unless the account is
    pro; a rejected call leaves the candidates empty, charges nothing and
    sets an error message. *)
Theorem variations_leave_the_history r variationPrompt before call resume :
  handleGenerateVariations r variationPrompt = Pending before call resume →
  ∀ reply st,
    history (resume reply (before st)) = history st ∧
    historyIndex (resume reply (before st)) = historyIndex st ∧
    variations (before st) = [] ∧
    loadingTab (before st) = Some Tab_variations ∧
    loadingTab (resume reply (before st)) = None ∧
    selectedVariationIndex (resume reply (before st)) = None ∧
    match reply with
    | fulfilled urls =>
        variations (resume reply (before st)) = urls ∧
        credits (resume reply (before st))
        = (if isPro r then credits st else credits r - 3)%Z
    | rejected err =>
        variations (resume reply (before st)) = [] ∧
        credits (resume reply (before st)) = credits st ∧
        error (resume reply (before st))
        = Some ("Failed to generate variations. " +:+ errorMessage err)
    end.
Proof.
  unfold handleGenerateVariations.
  destruct (currentImage r) as [image|]; [|discriminate].
  destruct (loadingTab r); [discriminate|].
  destruct (checkCredits r (COST_IMAGE_GEN * 3)) as [enough modal] eqn:Hcredits.
  destruct enough; [|discriminate]. cbn [negb].
  apply checkCredits_enough in Hcredits as ->.
  intros [= <- <- <-] reply st. cbn beta iota.
  destruct reply as [urls|err]; [|repeat split; reflexivity].
  unfold deductCredits.
  destruct (bool_decide (length urls = 0)), (isPro r);
    repeat split; reflexivity.
Qed.

(** X14. From a generated variation to a version: once the candidates
    are stored, selecting the [i]-th one and applying it appends the file
    ["variation-<clock>.png"] decoded from it after the versions up to the
    cursor, and charges nothing; the candidates and the selection are
    cleared by the append, so that applying again only sets the message
    that asks for a selection. *)
Theorem applying_a_variation r variationPrompt before call resume :
  handleGenerateVariations r variationPrompt = Pending before call resume →
  ∀ urls (i : nat) url now file st,
    urls !! i = Some url → truthy url = true →
    dataURLtoFile atob url ("variation-" +:+ toString now +:+ ".png")
    = fulfilled file →
    let generated := resume (fulfilled urls) (before st) in
    let selected := setSelectedVariationIndex (Some (Z.of_nat i)) generated in
    let applied := fire (λ r', handleApplyVariation atob r' now) selected in
    history applied = slice (history st) 0 (historyIndex st + 1) ++ [file] ∧
    currentImage applied = Some file ∧
    credits applied = credits generated ∧
    variations applied = [] ∧ selectedVariationIndex applied = None ∧
    ∀ now', fire (λ r', handleApplyVariation atob r' now') applied
            = setError (Some "Please select a variation to apply.") applied.
Proof.
  intros Hcall urls i url now file st Hurl Htruthy Hfile generated selected applied.
  destruct (variations_leave_the_history r variationPrompt before call resume
              Hcall (fulfilled urls) st) as (Hh & Hi & _ & _ & _ & _ & Hv & _).
  fold generated in Hh, Hi, Hv.
  assert (handleApplyVariation atob selected now
          = addImageToHistory selected file) as Happly.
  { unfold handleApplyVariation.
    change (selectedVariationIndex selected) with (Some (Z.of_nat i)).
    change (variations selected) with (variations generated). rewrite Hv.
    cbn [mbind option_bind]. unfold index.
    destruct (Z.ltb_spec (Z.of_nat i) 0); [lia|].
    rewrite Nat2Z.id, Hurl, Htruthy, Hfile. done. }
  assert (history applied = slice (history st) 0 (historyIndex st + 1) ++ [file])
    as Hha.
  { subst applied. unfold fire. rewrite Happly, history_addImageToHistory.
    change (history selected) with (history generated).
    change (historyIndex selected) with (historyIndex generated).
    by rewrite Hh, Hi. }
  assert (selectedVariationIndex applied = None) as Hsel.
  { subst applied. unfold fire. rewrite Happly. reflexivity. }
  split; [exact Hha|]. split.
  { apply (appended_is_current selected).
    - subst applied. unfold fire. rewrite Happly. apply history_addImageToHistory.
    - subst applied. unfold fire. rewrite Happly.
      apply historyIndex_addImageToHistory. }
  split; [subst applied; unfold fire; rewrite Happly; reflexivity|].
  split; [subst applied; unfold fire; rewrite Happly; reflexivity|].
  split; [exact Hsel|].
  intros now'. unfold fire at 1, handleApplyVariation. by rewrite Hsel.
Qed.

(** X15. [handleApplyResize] costs nothing and sets no loading flag. If
    the image fails to load, or no drawing context can be had, only an
    error message is set. If the canvas gives a data URL that
    [dataURLtoFile] reads, the versions become those of the render in
    which the resize was started, up to its cursor, followed by the file
    ["resized-<clock>.png"], whatever the state has become in the
    meantime: also after an upload or a discard. *)
Theorem resize_appends_to_its_render r width height before call resume :
  handleApplyResize atob r width height = Pending before call resume →
  ∀ st,
    before = skip ∧
    call ∈ (λ image, LoadImage image width height) <$> history r ∧
    history (resume onerror st) = history st ∧
    historyIndex (resume onerror st) = historyIndex st ∧
    error (resume onerror st) = Some "Failed to load the image for resizing." ∧
    (∀ now,
       history (resume (onload None now) st) = history st ∧
       historyIndex (resume (onload None now) st) = historyIndex st ∧
       error (resume (onload None now) st)
       = Some "Could not process the resize operation.") ∧
    (∀ url now file,
       dataURLtoFile atob url ("resized-" +:+ toString now +:+ ".png")
       = fulfilled file →
       let st' := resume (onload (Some url) now) st in
       history st' = slice (history r) 0 (historyIndex r + 1) ++ [file] ∧
       currentImage st' = Some file ∧
       credits st' = credits st ∧ loadingTab st' = loadingTab st).
Proof.
  unfold handleApplyResize.
  destruct (currentImage r) as [image|] eqn:Himage; [|discriminate].
  intros [= <- <- <-] st. split; [done|]. split.
  { apply list_elem_of_fmap. exists image. split; [done|].
    unfold currentImage, index in Himage.
    destruct (historyIndex r <? 0)%Z; [discriminate|].
    by apply list_elem_of_lookup_2 in Himage. }
  split; [reflexivity|]. split; [reflexivity|]. split; [reflexivity|].
  split; [intros now; repeat split; reflexivity|].
  intros url now file Hfile. cbn beta iota zeta. rewrite Hfile.
  split; [reflexivity|].
  split; [by apply (appended_is_current r)|].
  split; reflexivity.
Qed.

End MoreHandlers.

(** Decides the guards of a handler on the sample session. *)
Ltac sample_guards st :=
  replace (currentImage st) with (Some (sample 1)) by (vm_compute; reflexivity);
  replace (loadingTab st) with (@None Tab) by (vm_compute; reflexivity);
  try replace (checkCredits st COST_IMAGE_GEN) with (true, skip)
    by (unfold checkCredits;
        replace (isPro st) with false by (vm_compute; reflexivity);
        replace (credits st) with 5%Z by (vm_compute; reflexivity);
        reflexivity);
  try replace (checkCredits st (COST_IMAGE_GEN * 3)) with (true, skip)
    by (unfold checkCredits;
        replace (isPro st) with false by (vm_compute; reflexivity);
        replace (credits st) with 5%Z by (vm_compute; reflexivity);
        reflexivity);
  cbn [negb].

Lemma sample_generate_pending :
  ∃ before request resume,
    handleGenerate (λ s, fulfilled s) sampleReady = Await before request resume.
Proof.
  unfold handleGenerate. sample_guards sampleReady.
  replace (trim (prompt sampleReady)) with "make the sky blue"
    by (vm_compute; reflexivity).
  replace (editHotspot sampleReady) with (Some sampleHotspot)
    by (vm_compute; reflexivity).
  cbn [negb truthy]. eauto.
Qed.

Lemma sample_variations_pending :
  ∃ before call resume,
    handleGenerateVariations sampleSession "anime" = Pending before call resume.
Proof. unfold handleGenerateVariations. sample_guards sampleSession. eauto. Qed.

Lemma sample_resize_pending :
  ∃ before call resume,
    handleApplyResize (λ s, fulfilled s) sampleSession 64 64
    = Pending before call resume.
Proof.
  unfold handleApplyResize.
  replace (currentImage sampleSession) with (Some (sample 1))
    by (vm_compute; reflexivity).
  eauto.
Qed.

Lemma sample_cells :
  history sampleSession = [sample 0; sample 1] ∧ historyIndex sampleSession = 1%Z ∧
  history sampleReady = [sample 0; sample 1] ∧ historyIndex sampleReady = 1%Z.
Proof. repeat split; vm_compute; reflexivity. Qed.

Lemma successful_retouch_witness :
  ∃ before request resume,
    handleGenerate (λ s, fulfilled s) sampleReady = Await before request resume ∧
    history (resume (fulfilled sampleDataUrl) 17%Z sampleReady)
    = [sample 0; sample 1; mkFile [81; 85; 74; 68]%Z "edited-17.png" "image/png"].
Proof.
  destruct sample_generate_pending as (before & request & resume & Hcall).
  exists before, request, resume. split; [exact Hcall|].
  destruct (successful_retouch (λ s, fulfilled s) sampleReady before request resume
              Hcall sampleDataUrl 17%Z
              (mkFile [81; 85; 74; 68]%Z "edited-17.png" "image/png") sampleReady)
    as (Hh & _).
  - vm_compute. reflexivity.
  - rewrite Hh. destruct sample_cells as (_ & _ & -> & ->). reflexivity.
Defined.

Lemma variations_leave_the_history_witness :
  ∃ before call resume,
    handleGenerateVariations sampleSession "anime" = Pending before call resume ∧
    history (resume (rejected NonError) (before sampleSession))
    = history sampleSession.
Proof.
  destruct sample_variations_pending as (before & call & resume & Hcall).
  exists before, call, resume. split; [exact Hcall|].
  apply (variations_leave_the_history sampleSession "anime" before call resume
           Hcall (rejected NonError) sampleSession).
Defined.

Lemma applying_a_variation_witness :
  ∃ before call resume,
    handleGenerateVariations sampleSession "anime" = Pending before call resume ∧
    history
      (fire (λ r', handleApplyVariation (λ s, fulfilled s) r' 17%Z)
         (setSelectedVariationIndex (Some (Z.of_nat 0))
            (resume (fulfilled [sampleDataUrl]) (before sampleSession))))
    = [sample 0; sample 1; mkFile [81; 85; 74; 68]%Z "variation-17.png" "image/png"].
Proof.
  destruct sample_variations_pending as (before & call & resume & Hcall).
  exists before, call, resume. split; [exact Hcall|].
  destruct (applying_a_variation (λ s, fulfilled s) sampleSession "anime"
              before call resume Hcall [sampleDataUrl] 0 sampleDataUrl 17%Z
              (mkFile [81; 85; 74; 68]%Z "variation-17.png" "image/png")
              sampleSession) as (Hh & _).
  - reflexivity.
  - reflexivity.
  - vm_compute. reflexivity.
  - rewrite Hh. destruct sample_cells as (-> & -> & _). reflexivity.
Defined.

Lemma resize_appends_to_its_render_witness :
  ∃ before call resume,
    handleApplyResize (λ s, fulfilled s) sampleSession 64 64
    = Pending before call resume ∧
    history (resume (onload (Some sampleDataUrl) 17%Z) (discard sampleSession))
    = [sample 0; sample 1; mkFile [81; 85; 74; 68]%Z "resized-17.png" "image/png"].
Proof.
  destruct sample_resize_pending as (before & call & resume & Hcall).
  exists before, call, resume. split; [exact Hcall|].
  destruct (resize_appends_to_its_render (λ s, fulfilled s) sampleSession 64 64
              before call resume Hcall (discard sampleSession))
    as (_ & _ & _ & _ & _ & _ & Hok).
  destruct (Hok sampleDataUrl 17%Z
              (mkFile [81; 85; 74; 68]%Z "resized-17.png" "image/png"))
    as (Hh & _).
  - vm_compute. reflexivity.
  - rewrite Hh. destruct sample_cells as (-> & -> & _). reflexivity.
Defined.

(** *** The guided tour and the prompt panels *)

Lemma tour_seen_kept_by_charge r cost st :
  localStorage_getItem "brainwave_tour_seen" (deductCredits r cost st)
  = localStorage_getItem "brainwave_tour_seen" st.
Proof.
  unfold deductCredits. destruct (isPro r); [reflexivity|].
  run_setters. by apply lookup_insert_ne.
Qed.

Lemma upload_keeps_tour_when_seen file st seen :
  localStorage_getItem "brainwave_tour_seen" st = Some seen → truthy seen = true →
  isTourActive (handleImageUpload file st) = isTourActive st.
Proof.
  intros Hseen Htruthy. revert Hseen. unfold handleImageUpload.
  run_setters. intros Hseen. unfold truthy_opt. by rewrite Hseen, Htruthy.
Qed.

Lemma handleNext_iter n st :
  Nat.iter n handleNext (0%Z, st)
  = if decide (n ≤ 2) then (Z.of_nat n, st)
    else (2%Z, Nat.iter (n - 2) handleEndTour st).
Proof.
  induction n as [|n IH]; [reflexivity|].
  rewrite Nat.iter_succ, IH. unfold handleNext.
  change (Z.of_nat (length tourSteps) - 1)%Z with 2%Z.
  destruct (decide (n ≤ 2)), (decide (S n ≤ 2)); try lia.
  - destruct (Z.ltb_spec (Z.of_nat n) 2); [|lia]. f_equal. lia.
  - assert (n = 2) as -> by lia. reflexivity.
  - change (2 <? 2)%Z with false. cbn iota.
    replace (S n - 2) with (S (n - 2)) by lia. by rewrite Nat.iter_succ.
Qed.

(** X16. The guided tour is shown once. An upload starts it when the
    browser has nothing stored under ["brainwave_tour_seen"]; the third
    click on Next ends it, the step never leaving the three steps; and
    once it has ended, an upload does not start it again, also when
    credits were charged in between. *)
Theorem tour_is_shown_once st file :
  (localStorage_getItem "brainwave_tour_seen" st = None →
     isTourActive (handleImageUpload file st) = true) ∧
  (∀ n, (0 ≤ fst (Nat.iter n handleNext (0%Z, st)) ≤ 2)%Z ∧
        is_Some (currentStep (fst (Nat.iter n handleNext (0%Z, st))))) ∧
  Nat.iter 2 handleNext (0%Z, st) = (2%Z, st) ∧
  Nat.iter 3 handleNext (0%Z, st) = (2%Z, handleEndTour st) ∧
  isTourActive (handleEndTour st) = false ∧
  isTourActive (handleImageUpload file (handleEndTour st)) = false ∧
  (∀ r cost,
     isTourActive (handleImageUpload file (deductCredits r cost (handleEndTour st)))
     = false).
Proof.
  assert (localStorage_getItem "brainwave_tour_seen" (handleEndTour st)
          = Some "true") as Hseen.
  { unfold handleEndTour. run_setters. apply lookup_insert_eq. }
  split; [|split; [|split; [|split; [|split; [|split]]]]].
  - unfold handleImageUpload. run_setters. intros Hnone. by rewrite Hnone.
  - intros n. rewrite handleNext_iter.
    destruct (decide (n ≤ 2)); cbn [fst].
    + split; [lia|].
      destruct n as [|[|[|n]]]; [by eexists.. | lia].
    + split; [lia | by eexists].
  - by rewrite handleNext_iter.
  - by rewrite handleNext_iter.
  - reflexivity.
  - by rewrite (upload_keeps_tour_when_seen _ _ "true").
  - intros r cost.
    rewrite (upload_keeps_tour_when_seen _ _ "true");
      [| by rewrite tour_seen_kept_by_charge | done].
    unfold deductCredits. destruct (isPro r); reflexivity.
Qed.

Lemma tour_is_shown_once_witness :
  isTourActive (handleImageUpload (sample 0) (initialState ∅)) = true.
Proof.
  apply (proj1 (tour_is_shown_once (initialState ∅) (sample 0))).
  apply lookup_empty.
Defined.

Lemma choose_last c e :
  activePrompt (choose c e) = chosen e ∧
  (selectedPresetPrompt (choose c e) = None ∨
   customPrompt (choose c e) = EmptyString).
Proof.
  destruct e as [p | v]; cbn.
  - split; [|by right]. unfold activePrompt, or_else. cbn. by destruct p.
  - split; [done | by left].
Qed.

(** X17. In the filter, adjustment and variations panels the prompt in
    force is the one chosen last, whether a preset was clicked or a
    custom text typed, and never both at once; [handleApply] passes
    exactly that prompt to the handler of the application, and calls
    nothing when it is empty. *)
Theorem panel_applies_the_last_choice events e :
  let c := foldl choose initialChoice (events ++ [e]) in
  activePrompt c = chosen e ∧
  (selectedPresetPrompt c = None ∨ customPrompt c = EmptyString) ∧
  handleApply c = (if truthy (chosen e) then Some (chosen e) else None) ∧
  handleApply initialChoice = None.
Proof.
  intros c. subst c. rewrite foldl_app. cbn [foldl].
  destruct (choose_last (foldl choose initialChoice events) e) as [Ha Hx].
  unfold handleApply. rewrite Ha. done.
Qed.

(** *** The service: replies, data URLs and their way into the history *)

Lemma append_cons x a b : String x a +:+ b = String x (a +:+ b).
Proof. reflexivity. Qed.

Lemma append_assoc a b c : (a +:+ b) +:+ c = a +:+ b +:+ c.
Proof. induction a as [|x a IH]; [done|]. by rewrite !append_cons, IH. Qed.

Lemma occurs_app c a b : occurs c (a +:+ b) = occurs c a || occurs c b.
Proof.
  induction a as [|c' a IH]; [done|].
  rewrite append_cons. cbn [occurs]. by rewrite IH, orb_assoc.
Qed.

Lemma split_comma_plain s : occurs "," s = false → split_comma s = [s].
Proof.
  induction s as [|c s IH]; [done|]. cbn [occurs split_comma]. intros H.
  apply orb_false_iff in H as [Hc Hs]. by rewrite Hc, (IH Hs).
Qed.

Lemma split_comma_app a b :
  occurs "," a = false → split_comma (a +:+ "," +:+ b) = a :: split_comma b.
Proof.
  induction a as [|c a IH]; [done|].
  rewrite append_cons. cbn [occurs split_comma]. intros H.
  apply orb_false_iff in H as [Hc Ha]. by rewrite Hc, (IH Ha).
Qed.

Lemma lazy_until_semicolon_app m rest :
  occurs ";" m = false → occurs "010" m = false → occurs "013" m = false →
  lazy_until_semicolon (m +:+ ";" +:+ rest) = Some m.
Proof.
  induction m as [|c m IH]; [done|].
  rewrite append_cons. cbn [occurs lazy_until_semicolon]. intros Hs Hl Hr.
  apply orb_false_iff in Hs as [Hs Hs'], Hl as [Hl Hl'], Hr as [Hr Hr'].
  unfold is_line_terminator. by rewrite Hs, Hl, Hr, (IH Hs' Hl' Hr').
Qed.

Lemma plain_mime_spec m :
  plain_mime m = true →
  truthy m = true ∧ occurs "," m = false ∧ occurs ";" m = false ∧
  occurs "010" m = false ∧ occurs "013" m = false.
Proof.
  unfold plain_mime. rewrite !andb_true_iff, !negb_true_iff.
  intros ((((? & ?) & ?) & ?) & ?). done.
Qed.

Lemma data_url_parts m d :
  plain_mime m = true → plain_payload d = true →
  split_comma ("data:" +:+ m +:+ ";base64," +:+ d) = ["data:" +:+ m +:+ ";base64"; d] ∧
  match_mime ("data:" +:+ m +:+ ";base64") = Some m.
Proof.
  intros (Ht & Hc & Hs & Hl & Hr)%plain_mime_spec Hd.
  unfold plain_payload in Hd. apply negb_true_iff in Hd. split.
  - assert ("data:" +:+ m +:+ ";base64," +:+ d
            = ("data:" +:+ m +:+ ";base64") +:+ "," +:+ d) as ->.
    { rewrite !append_assoc. reflexivity. }
    rewrite split_comma_app, (split_comma_plain d Hd); [done|].
    rewrite !occurs_app, Hc. reflexivity.
  - change (match_mime ("data:" +:+ m +:+ ";base64"))
      with (match lazy_until_semicolon (m +:+ ";" +:+ "base64") with
            | Some g => Some g
            | None => match_mime (m +:+ ";" +:+ "base64")
            end).
    by rewrite lazy_until_semicolon_app.
Qed.

Lemma fileToPart_data_url m d :
  plain_mime m = true → plain_payload d = true →
  fileToPart (fulfilled ("data:" +:+ m +:+ ";base64," +:+ d))
  = fulfilled (mkPart (Some (mkInlineData (Some m) (Some d)))).
Proof.
  intros Hm Hd. destruct (data_url_parts m d Hm Hd) as [Hsplit Hmime].
  apply plain_mime_spec in Hm as (Ht & _).
  unfold fileToPart. by rewrite Hsplit, Hmime, Ht.
Qed.

Lemma dataURLtoFile_data_url atob m d filename :
  plain_mime m = true → plain_payload d = true →
  dataURLtoFile atob ("data:" +:+ m +:+ ";base64," +:+ d) filename
  = match atob d with
    | fulfilled bstr => fulfilled (mkFile (charCodes bstr) filename m)
    | rejected e => rejected e
    end.
Proof.
  intros Hm Hd. destruct (data_url_parts m d Hm Hd) as [Hsplit Hmime].
  apply plain_mime_spec in Hm as (Ht & _).
  unfold dataURLtoFile. by rewrite Hsplit, Hmime, Ht.
Qed.

Lemma find_first {A} (p : A → bool) (l : list A) (x : A) :
  List.find p l = Some x ↔
  ∃ pre post, l = pre ++ x :: post ∧ p x = true ∧ Forall (λ y, p y = false) pre.
Proof.
  induction l as [|y l IH]; cbn.
  - split; [done|]. intros (pre & post & H & _). by destruct pre.
  - destruct (p y) eqn:Hy.
    + split.
      * intros [= ->]. exists [], l. by repeat split.
      * intros ([|z pre] & post & H & Hx & Hpre).
        -- by injection H as -> _.
        -- injection H as -> _. apply Forall_cons in Hpre as [? _]. congruence.
    + rewrite IH. split.
      * intros (pre & post & -> & Hx & Hpre). exists (y :: pre), post.
        repeat split; [done|]. by constructor.
      * intros ([|z pre] & post & H & Hx & Hpre).
        -- injection H as -> _. congruence.
        -- injection H as -> ->. apply Forall_cons in Hpre as [_ ?]. eauto.
Qed.

Lemma has_inlineData_false p : has_inlineData p = false ↔ inlineData p = None.
Proof. unfold has_inlineData. by destruct (inlineData p). Qed.

(** The image part [handleApiResponse] picks, if any: the first part of
    the first candidate that has [inlineData]. *)
Lemma first_image_part response image :
  imageOf response = Some image ↔
  ∃ candidate rest ps pre post,
    candidates response = Some (candidate :: rest) ∧
    parts candidate = Some ps ∧
    ps = pre ++ mkPart (Some image) :: post ∧
    Forall (λ p, inlineData p = None) pre.
Proof.
  unfold imageOf. split.
  - destruct (candidates response) as [[|candidate rest]|]; try done.
    cbn [mbind option_bind head].
    destruct (parts candidate) as [ps|] eqn:Hps; [|done].
    cbn [mbind option_bind].
    destruct (List.find has_inlineData ps) as [part|] eqn:Hfind; [|done].
    cbn [mbind option_bind]. intros Himage.
    apply find_first in Hfind as (pre & post & -> & _ & Hpre).
    exists candidate, rest, (pre ++ part :: post), pre, post.
    split; [done|]. split; [exact Hps|]. split.
    + destruct part as [i]. cbn [inlineData] in Himage. by rewrite Himage.
    + eapply Forall_impl; [exact Hpre|]. intros p. apply has_inlineData_false.
  - intros (candidate & rest & ps & pre & post & -> & Hps & -> & Hpre).
    cbn [mbind option_bind head]. rewrite Hps. cbn [mbind option_bind].
    assert (List.find has_inlineData (pre ++ mkPart (Some image) :: post)
            = Some (mkPart (Some image))) as ->; [|done].
    apply find_first. exists pre, post. split; [done|]. split; [done|].
    eapply Forall_impl; [exact Hpre|]. intros p. apply has_inlineData_false.
Qed.

Lemma handleApiResponse_blocked response context :
  blocked response = true →
  ∃ details, handleApiResponse response context
             = rejected (ErrorObj ("Request was blocked. Reason: " +:+ details)).
Proof. unfold handleApiResponse, blocked. intros ->. eauto. Qed.

Lemma handleApiResponse_no_image response context :
  blocked response = false → imageOf response = None →
  ∃ message, handleApiResponse response context = rejected (ErrorObj message).
Proof.
  unfold handleApiResponse, blocked, imageOf. intros -> ->.
  destruct (_ && _); eauto.
Qed.

Lemma handleApiResponse_rejects_with_error response context err :
  handleApiResponse response context = rejected err →
  ∃ message, err = ErrorObj message ∧ truthy message = true.
Proof.
  unfold handleApiResponse.
  destruct (truthy_opt _); [intros [= <-]; eauto|].
  destruct (_ ≫= inlineData); [done|].
  destruct (_ && _); intros [= <-]; eauto.
Qed.

Lemma handleApiResponse_image response context image :
  blocked response = false → imageOf response = Some image →
  handleApiResponse response context
  = fulfilled ("data:" +:+ interpolate (mimeType image) +:+ ";base64,"
               +:+ interpolate (data image)).
Proof. unfold handleApiResponse, blocked, imageOf. by intros -> ->. Qed.

(** X18. [handleApiResponse] answers with a URL exactly when the prompt
    was not blocked and the first candidate has a part with inline data;
    the URL is built from the first such part, and parts of later
    candidates are not looked at. A block reason wins over an image that
    came with it, and every failure is an [Error] with a message. *)
Theorem api_response_carries_the_first_image response context :
  (∀ url,
     handleApiResponse response context = fulfilled url ↔
     blocked response = false ∧
     ∃ candidate rest ps pre image post,
       candidates response = Some (candidate :: rest) ∧
       parts candidate = Some ps ∧
       ps = pre ++ mkPart (Some image) :: post ∧
       Forall (λ p, inlineData p = None) pre ∧
       url = "data:" +:+ interpolate (mimeType image) +:+ ";base64,"
             +:+ interpolate (data image)) ∧
  (blocked response = true →
     ∃ details, handleApiResponse response context
                = rejected (ErrorObj ("Request was blocked. Reason: " +:+ details))) ∧
  (∀ err, handleApiResponse response context = rejected err →
          ∃ message, err = ErrorObj message ∧ truthy message = true).
Proof.
  split; [|split].
  - intros url. split.
    + intros Hurl. destruct (blocked response) eqn:Hblock.
      { apply (handleApiResponse_blocked _ context) in Hblock as [? Hrej].
        congruence. }
      split; [done|].
      destruct (imageOf response) as [image|] eqn:Himage.
      * rewrite (handleApiResponse_image _ _ image Hblock Himage) in Hurl.
        injection Hurl as <-.
        apply first_image_part in Himage
          as (candidate & rest & ps & pre & post & ? & ? & ? & ?).
        by exists candidate, rest, ps, pre, image, post.
      * apply (handleApiResponse_no_image _ context Hblock) in Himage as [? Hrej].
        congruence.
    + intros (Hblock & candidate & rest & ps & pre & image & post
                & Hc & Hps & Hpre & Hnone & ->).
      apply handleApiResponse_image; [done|].
      apply first_image_part. by exists candidate, rest, ps, pre, post.
  - apply handleApiResponse_blocked.
  - apply handleApiResponse_rejects_with_error.
Qed.

Lemma api_response_carries_the_first_image_witness :
  ∃ response,
    sampleImageReply = fulfilled response ∧
    handleApiResponse response "edit" = fulfilled "data:image/png;base64,QUJD".
Proof.
  eexists. split; [reflexivity|].
  apply (proj1 (api_response_carries_the_first_image _ "edit")).
  split; [reflexivity|].
  eexists _, [], _, [mkPart None], (mkInlineData (Some "image/png") (Some "QUJD")), [].
  repeat split. by repeat constructor.
Defined.

(** X19. A data URL survives the round trip: when the reply carries an
    image whose MIME type and payload are plain (no comma, and for the
    type no semicolon or line break), the URL [handleApiResponse] builds
    is read back by [fileToPart] as the same type and payload, and by
    [dataURLtoFile] as a file of that type holding the bytes [atob] gives
    for the payload. *)
Theorem data_url_round_trip response context image atob filename :
  blocked response = false → imageOf response = Some image →
  plain_mime (interpolate (mimeType image)) = true →
  plain_payload (interpolate (data image)) = true →
  ∃ url,
    handleApiResponse response context = fulfilled url ∧
    fileToPart (fulfilled url)
    = fulfilled (mkPart (Some (mkInlineData
        (Some (interpolate (mimeType image)))
        (Some (interpolate (data image)))))) ∧
    dataURLtoFile atob url filename
    = match atob (interpolate (data image)) with
      | fulfilled bstr =>
          fulfilled (mkFile (charCodes bstr) filename (interpolate (mimeType image)))
      | rejected e => rejected e
      end.
Proof.
  intros Hblock Himage Hm Hd. eexists. split; [|split].
  - by apply handleApiResponse_image.
  - by apply fileToPart_data_url.
  - by apply dataURLtoFile_data_url.
Qed.

Lemma data_url_round_trip_witness :
  ∃ response url,
    sampleImageReply = fulfilled response ∧
    handleApiResponse response "filter" = fulfilled url ∧
    dataURLtoFile (λ s, fulfilled s) url "filtered-17.png"
    = fulfilled (mkFile [81; 85; 74; 68]%Z "filtered-17.png" "image/png").
Proof.
  eexists.
  destruct (data_url_round_trip
              (mkResponse None
                 (Some [mkCandidate
                    (Some [mkPart None;
                           mkPart (Some (mkInlineData (Some "image/png") (Some "QUJD")))])
                    (Some "STOP")]) None)
              "filter" (mkInlineData (Some "image/png") (Some "QUJD"))
              (λ s, fulfilled s) "filtered-17.png")
    as (url & Hurl & _ & Hfile); try reflexivity.
  exists url. split; [reflexivity|]. split; [exact Hurl | exact Hfile].
Defined.

(** X20. The two parsers of data URLs agree: [dataURLtoFile] of the
    application rejects exactly the URLs [fileToPart] of the service
    rejects, with the same error and before [atob] is called; on the
    others it builds its file from the MIME type and the payload
    [fileToPart] finds. A text without a comma is rejected by both as an
    invalid data URL. *)
Theorem data_url_parsers_agree atob url filename :
  match fileToPart (fulfilled url) with
  | rejected e => dataURLtoFile atob url filename = rejected e
  | fulfilled part =>
      ∃ m d,
        part = mkPart (Some (mkInlineData (Some m) (Some d))) ∧
        truthy m = true ∧
        dataURLtoFile atob url filename
        = match atob d with
          | fulfilled bstr => fulfilled (mkFile (charCodes bstr) filename m)
          | rejected e => rejected e
          end
  end ∧
  (occurs "," url = false →
   fileToPart (fulfilled url) = rejected (ErrorObj "Invalid data URL")).
Proof.
  split.
  - unfold fileToPart, dataURLtoFile.
    destruct (split_comma url) as [|arr0 [|arr1 arr]]; try done.
    destruct (match_mime arr0) as [m|]; [|done].
    destruct (truthy m) eqn:Hm; [|done]. by exists m, arr1.
  - intros Hplain. unfold fileToPart. by rewrite split_comma_plain.
Qed.

Lemma data_url_parsers_agree_witness :
  fileToPart (fulfilled "not a data url") = rejected (ErrorObj "Invalid data URL").
Proof.
  apply (proj2 (data_url_parsers_agree (λ s, fulfilled s) "not a data url" "x.png")).
  reflexivity.
Defined.

Lemma generateSingleVariation_data_url reply url :
  generateSingleVariation reply = fulfilled url → ∃ rest, url = "data:" +:+ rest.
Proof.
  destruct reply as [response|e]; [|done]. cbn [generateSingleVariation].
  unfold handleApiResponse. destruct (truthy_opt _); [done|].
  destruct (_ ≫= inlineData); [|by destruct (_ && _)].
  intros [= <-]. eauto.
Qed.

(** X21. What [generateVariations] returns: one to three URLs, each a
    data URL. It never returns an empty list, so
    [handleGenerateVariations], given its answer, stores the candidates
    without setting the message for an empty result. *)
Theorem variations_are_data_urls readAsDataURL reply1 reply2 reply3 urls :
  generateVariations readAsDataURL reply1 reply2 reply3 = fulfilled urls →
  1 ≤ length urls ≤ 3 ∧
  (∀ url, url ∈ urls → ∃ rest, url = "data:" +:+ rest) ∧
  (∀ r variationPrompt before call resume st,
     handleGenerateVariations r variationPrompt = Pending before call resume →
     error (resume (fulfilled urls) (before st)) = None ∧
     variations (resume (fulfilled urls) (before st)) = urls).
Proof.
  intros Hurls.
  assert (1 ≤ length urls ≤ 3 ∧ (∀ url, url ∈ urls → ∃ rest, url = "data:" +:+ rest))
    as [Hlen Hdata].
  { revert Hurls. unfold generateVariations.
    destruct (fileToPart readAsDataURL); [|done]. unfold allSettled.
    pose proof (generateSingleVariation_data_url reply1) as H1.
    pose proof (generateSingleVariation_data_url reply2) as H2.
    pose proof (generateSingleVariation_data_url reply3) as H3.
    destruct (generateSingleVariation reply1) as [u1|],
             (generateSingleVariation reply2) as [u2|],
             (generateSingleVariation reply3) as [u3|];
      cbn; intros [= <-]; (split; [cbn; lia|]); intros url Hin;
      repeat (apply elem_of_cons in Hin as [-> | Hin]; [eauto|]);
      by apply elem_of_nil in Hin. }
  split; [exact Hlen|]. split; [exact Hdata|].
  intros r variationPrompt before call resume st. unfold handleGenerateVariations.
  destruct (currentImage r) as [image|]; [|discriminate].
  destruct (loadingTab r); [discriminate|].
  destruct (checkCredits r (COST_IMAGE_GEN * 3)) as [enough modal] eqn:Hcredits.
  destruct enough; [|discriminate]. cbn [negb].
  apply checkCredits_enough in Hcredits as ->.
  intros [= <- <- <-]. cbn beta iota.
  destruct urls as [|u urls]; [cbn in Hlen; lia|].
  unfold deductCredits. destruct (isPro r); split; reflexivity.
Qed.

Lemma variations_are_data_urls_witness :
  1 ≤ length ["data:image/png;base64,QUJD"] ≤ 3.
Proof.
  apply (variations_are_data_urls (fulfilled sampleDataUrl)
           sampleStoppedReply sampleImageReply (rejected NonError)).
  reflexivity.
Defined.

Section FilterEndToEnd.
Variable atob : string → Settled string.

(** X22. From the reply of the model to the history: when the file is
    read, the prompt is not blocked and the first candidate carries an
    image with a plain MIME type and a payload [atob] decodes, applying a
    filter appends, after the versions up to the cursor, the file
    ["filtered-<clock>.png"] of that type that holds the decoded bytes. *)
Theorem filtered_image_reaches_the_history r filterPrompt before call resume :
  handleApplyFilter atob r filterPrompt = Pending before call resume →
  ∀ readAsDataURL part response image bstr now st,
    fileToPart readAsDataURL = fulfilled part →
    blocked response = false → imageOf response = Some image →
    plain_mime (interpolate (mimeType image)) = true →
    plain_payload (interpolate (data image)) = true →
    atob (interpolate (data image)) = fulfilled bstr →
    let reply := generateFilteredImage readAsDataURL (fulfilled response) in
    let file := mkFile (charCodes bstr) ("filtered-" +:+ toString now +:+ ".png")
                  (interpolate (mimeType image)) in
    history (resume (reply, now) st)
    = slice (history r) 0 (historyIndex r + 1) ++ [file] ∧
    currentImage (resume (reply, now) st) = Some file.
Proof.
  intros Hcall readAsDataURL part response image bstr now st
    Hpart Hblock Himage Hm Hd Hatob reply file.
  assert (reply = fulfilled ("data:" +:+ interpolate (mimeType image)
                             +:+ ";base64," +:+ interpolate (data image))) as ->.
  { subst reply. unfold generateFilteredImage, imageCall. rewrite Hpart.
    by apply handleApiResponse_image. }
  pose proof (dataURLtoFile_data_url atob _ _
                ("filtered-" +:+ toString now +:+ ".png") Hm Hd) as Hfile.
  rewrite Hatob in Hfile. fold file in Hfile.
  open_handler Hcall. cbn beta iota. rewrite Hfile.
  unfold deductCredits. destruct (isPro r);
    (split; [reflexivity | by apply (appended_is_current r)]).
Qed.

End FilterEndToEnd.

Lemma filtered_image_reaches_the_history_witness :
  ∃ before call resume response,
    handleApplyFilter (λ s, fulfilled s) sampleSession "film noir"
    = Pending before call resume ∧
    sampleImageReply = fulfilled response ∧
    history (resume (generateFilteredImage (fulfilled sampleDataUrl)
                       (fulfilled response), 17%Z) sampleSession)
    = [sample 0; sample 1; mkFile [81; 85; 74; 68]%Z "filtered-17.png" "image/png"].
Proof.
  destruct sample_filter_pending as (before & call & resume & Hcall).
  exists before, call, resume. eexists. split; [exact Hcall|].
  split; [reflexivity|].
  destruct (filtered_image_reaches_the_history (λ s, fulfilled s) sampleSession
              "film noir" before call resume Hcall
              (fulfilled sampleDataUrl)
              (mkPart (Some (mkInlineData (Some "image/png") (Some "QUJD"))))
              (mkResponse None
                 (Some [mkCandidate
                    (Some [mkPart None;
                           mkPart (Some (mkInlineData (Some "image/png") (Some "QUJD")))])
                    (Some "STOP")]) None)
              (mkInlineData (Some "image/png") (Some "QUJD"))
              "QUJD" 17%Z sampleSession) as [Hh _]; try reflexivity.
  rewrite Hh. destruct sample_cells as (-> & -> & _). reflexivity.
Defined.

(** *** The animation *)

Lemma pollingMessage_cases k :
  pollingMessage k ∈ pollingMessages ∧ pollingMessage (k + 4) = pollingMessage k.
Proof.
  unfold pollingMessage. split.
  - pose proof (Nat.mod_upper_bound k 4 ltac:(lia)) as Hk.
    destruct (k mod 4) as [|[|[|[|n]]]]; [| | | |lia]; cbn;
      repeat first [by left | right].
  - f_equal. f_equal. rewrite <- (Nat.Div0.add_mod_idemp_r k 4 4). cbn.
    by rewrite Nat.add_0_r.
Qed.

Lemma poll_trace answers : ∀ operation i messages result,
  poll operation i answers = (messages, result) →
  ∃ n, messages = pollingMessage <$> List.seq i n ∧
       (result = None → n = S (length answers)) ∧
       (result ≠ None → n ≤ length answers) ∧
       (∀ final, result = Some (fulfilled final) → done final = true).
Proof.
  induction answers as [|answer answers IH]; intros operation i messages result.
  - cbn [poll]. destruct (done operation) eqn:Hdone; intros [= <- <-].
    + exists 0. split; [done|]. split; [done|]. split; [done|].
      by intros final [= <-].
    + exists 1. split; [reflexivity|]. split; [done|]. split; done.
  - cbn [poll]. destruct (done operation) eqn:Hdone.
    { intros [= <- <-]. exists 0.
      split; [done|]. split; [done|]. split; [cbn; lia|].
      by intros final [= <-]. }
    destruct answer as [operation'|e].
    + destruct (poll operation' (S i) answers) as [messages' result'] eqn:Hpoll.
      intros [= <- <-].
      destruct (IH _ _ _ _ Hpoll) as (n & -> & Hnone & Hsome & Hdone').
      exists (S n). split; [reflexivity|].
      split; [intros Hres; cbn; f_equal; by apply Hnone|].
      split; [intros Hres; cbn; apply le_n_S; by apply Hsome | exact Hdone'].
    + intros [= <- <-]. exists 1.
      split; [reflexivity|]. split; [done|]. split; [cbn; lia | done].
Qed.

Lemma complete_not_polling i n :
  ("Animation complete!" ∉ (pollingMessage <$> List.seq i n)) ∧
  ("Downloading generated video..." ∉ (pollingMessage <$> List.seq i n)).
Proof.
  split; intros (k & Hk & _)%list_elem_of_fmap;
    destruct (pollingMessage_cases k) as [Hin _]; rewrite <- Hk in Hin;
    repeat (apply elem_of_cons in Hin as [Hin | Hin]; [discriminate Hin|]);
    by apply elem_of_nil in Hin.
Qed.

Lemma download_complete final fetched closing result :
  download final fetched = (closing, result) →
  result ≠ None ∧
  (("Animation complete!" ∈ closing) ↔
   (∃ videoUrl, result = Some (fulfilled videoUrl))).
Proof.
  assert ("Animation complete!" ∈ ["Downloading generated video..."] → False)
    as Hdl.
  { intros Hin. apply elem_of_cons in Hin as [Hin | Hin]; [discriminate Hin|].
    by apply elem_of_nil in Hin. }
  unfold download.
  destruct (op_error final).
  { intros [= <- <-]. split; [done|].
    split; [by intros ?%elem_of_nil | by intros [? ?]]. }
  destruct (negb (truthy_opt (uri final))).
  { intros [= <- <-]. split; [done|].
    split; [by intros ?%elem_of_nil | by intros [? ?]]. }
  destruct fetched as [response|].
  2:{ intros [= <- <-]. split; [done|]. split; [done | by intros [? ?]]. }
  destruct (negb (ok response)).
  { destruct (body_text response); intros [= <- <-];
      (split; [done|]); (split; [done | by intros [? ?]]). }
  destruct (blob_url response) as [videoUrl|]; intros [= <- <-].
  - split; [done|]. split; [eauto|]. intros _. right. by left.
  - split; [done|]. split; [done | by intros [? ?]].
Qed.

(** X23. The progress of a successful animation: when [generateAnimation]
    returns a video URL, the messages it has passed to [onStatusUpdate]
    are the two opening ones, then one message per poll, taken in turn
    from the four polling messages and starting over after the fourth,
    then the download message and the completion message; and the
    operation the loop ended on was done. *)
Theorem animation_progress_on_success readAsDataURL started answers fetched
    trace videoUrl :
  generateAnimation readAsDataURL started answers fetched
  = (trace, Some (fulfilled videoUrl)) →
  ∃ n, n ≤ length answers ∧
    trace = [ "Warming up the animation engine...";
              "AI is storyboarding your scene..." ]
            ++ (pollingMessage <$> List.seq 0 n)
            ++ [ "Downloading generated video..."; "Animation complete!" ] ∧
    (∀ k, pollingMessage k ∈ pollingMessages ∧
          pollingMessage (k + 4) = pollingMessage k).
Proof.
  unfold generateAnimation.
  destruct readAsDataURL as [dataUrl|]; [|done].
  destruct started as [operation|]; [|done].
  destruct (poll operation 0 answers) as [messages [[final|]|]] eqn:Hpoll; try done.
  destruct (poll_trace _ _ _ _ _ Hpoll) as (n & -> & _ & Hn & _).
  specialize (Hn ltac:(done)).
  unfold download. destruct (op_error final); [done|].
  destruct (negb (truthy_opt (uri final))); [done|].
  destruct fetched as [response|]; [|done].
  destruct (negb (ok response)); [by destruct (body_text response)|].
  destruct (blob_url response); [|done].
  intros [= <- <-]. exists n. repeat split; [done| |];
    apply pollingMessage_cases.
Qed.

Lemma animation_progress_on_success_witness :
  ∃ n, n ≤ 2 ∧
    fst (generateAnimation (fulfilled sampleDataUrl) (fulfilled samplePending)
           [fulfilled samplePending; fulfilled sampleDone] (fulfilled sampleFetch))
    = [ "Warming up the animation engine...";
        "AI is storyboarding your scene..." ]
      ++ (pollingMessage <$> List.seq 0 n)
      ++ [ "Downloading generated video..."; "Animation complete!" ].
Proof.
  destruct (animation_progress_on_success (fulfilled sampleDataUrl)
              (fulfilled samplePending)
              [fulfilled samplePending; fulfilled sampleDone] (fulfilled sampleFetch)
              _ "blob:1234" eq_refl) as (n & Hn & Htrace & _).
  exists n. split; [exact Hn | exact Htrace].
Defined.

(** X24. [generateAnimation] announces completion only when it returns a
    video: ["Animation complete!"] is among the messages exactly when the
    call is fulfilled. While the call waits for the answer of a poll,
    nothing has been said of a download, and the messages are the two
    opening ones, one for each answer that has come in, and the one of
    the poll that is out, which is the last. *)
Theorem animation_complete_only_on_success readAsDataURL started answers fetched
    trace outcome :
  generateAnimation readAsDataURL started answers fetched = (trace, outcome) →
  (("Animation complete!" ∈ trace) ↔
   (∃ videoUrl, outcome = Some (fulfilled videoUrl))) ∧
  (outcome = None →
   ("Downloading generated video..." ∉ trace) ∧
   length trace = 3 + length answers ∧
   last trace = Some (pollingMessage (length answers))).
Proof.
  unfold generateAnimation.
  destruct readAsDataURL as [dataUrl|].
  2:{ intros [= <- <-]. split; [|done].
      split; [by intros ?%elem_of_nil | by intros [? ?]]. }
  destruct started as [operation|].
  2:{ intros [= <- <-]. split; [|done]. split; [|by intros [? ?]].
      intros Hin. apply elem_of_cons in Hin as [Hin | Hin]; [discriminate Hin|].
      by apply elem_of_nil in Hin. }
  destruct (poll operation 0 answers) as [messages result] eqn:Hpoll.
  destruct (poll_trace _ _ _ _ _ Hpoll) as (n & -> & Hnone & _).
  assert (∀ l : list string,
            ("Animation complete!"
               ∈ [ "Warming up the animation engine...";
                   "AI is storyboarding your scene..." ]
                 ++ (pollingMessage <$> List.seq 0 n) ++ l) ↔
            ("Animation complete!" ∈ l)) as Hlate.
  { intros l. split.
    - intros Hin.
      do 2 (apply elem_of_cons in Hin as [Hin | Hin]; [discriminate Hin|]).
      apply elem_of_app in Hin as [Hin | Hin]; [|done].
      by apply complete_not_polling in Hin.
    - intros Hin. do 2 right. apply elem_of_app. by right. }
  assert ("Animation complete!"
            ∈ [ "Warming up the animation engine...";
                "AI is storyboarding your scene..." ]
              ++ (pollingMessage <$> List.seq 0 n) → False) as Hearly.
  { intros Hin.
    do 2 (apply elem_of_cons in Hin as [Hin | Hin]; [discriminate Hin|]).
    by apply complete_not_polling in Hin. }
  destruct result as [[final|e]|].
  - destruct (download final fetched) as [closing result] eqn:Hdownload.
    intros [= <- <-].
    destruct (download_complete _ _ _ _ Hdownload) as [Hsome Hiff].
    split; [|done]. rewrite <- Hiff. exact (Hlate closing).
  - intros [= <- <-]. split; [|done]. split; [done | by intros [? ?]].
  - intros [= <- <-]. split.
    + split; [done | by intros [? ?]].
    + intros _. rewrite (Hnone eq_refl). split; [|split].
      * intros Hin.
        do 2 (apply elem_of_cons in Hin as [Hin | Hin]; [discriminate Hin|]).
        by apply complete_not_polling in Hin.
      * cbn [app length]. by rewrite length_fmap, length_seq.
      * rewrite seq_S, fmap_app, !app_comm_cons.
        cbn [fmap list_fmap Nat.add]. apply last_snoc.
Qed.

Lemma animation_complete_only_on_success_witness :
  "Animation complete!"
    ∈ fst (generateAnimation (fulfilled sampleDataUrl) (fulfilled sampleDone) []
             (fulfilled sampleFetch)) ∧
  length (fst (generateAnimation (fulfilled sampleDataUrl) (fulfilled samplePending)
                 [fulfilled samplePending] (fulfilled sampleFetch))) = 4.
Proof.
  split.
  - apply (animation_complete_only_on_success (fulfilled sampleDataUrl)
             (fulfilled sampleDone) [] (fulfilled sampleFetch) _ _ eq_refl).
    by exists "blob:1234".
  - destruct (animation_complete_only_on_success (fulfilled sampleDataUrl)
                (fulfilled samplePending) [fulfilled samplePending]
                (fulfilled sampleFetch) _ _ eq_refl) as [_ Hwait].
    destruct (Hwait eq_refl) as (_ & Hlen & _). exact Hlen.
Defined.

(** *** The wallet *)

(** Decides whether a method name is among the requests that were made. *)
Ltac among_requests H :=
  repeat (apply elem_of_cons in H as [H | H]; [try discriminate H|]);
  try (by apply elem_of_nil in H).

(** X25. [connectToSei] hands out an account only from a wallet that is
    on the Sei chain when the call ends: the account is the first one
    the wallet gave, and the chain was Sei already, or the switch went
    through, or the switch failed with code 4902 and the chain was then
    added. The wallet is asked to switch only when it reports another
    chain, and to add the chain only after a switch failed with 4902. The
    alert is raised exactly when there is no provider;
    [checkIfWalletConnected] requests nothing but ["eth_accounts"] and
    never alerts. *)
Theorem wallet_connects_only_on_sei ethereum :
  (∀ account,
     returned (connectToSei ethereum) = Some account →
     ∃ provider accounts,
       ethereum = Some provider ∧
       eth_requestAccounts provider = resolved accounts ∧
       head accounts = Some account ∧
       (eth_chainId provider = resolved SEI_CHAIN_ID_HEX ∨
        wallet_switchEthereumChain provider = resolved tt ∨
        (wallet_switchEthereumChain provider = failed (Some 4902%Z) ∧
         wallet_addEthereumChain provider = resolved tt))) ∧
  ("wallet_switchEthereumChain" ∈ requests (connectToSei ethereum) →
     ∃ provider chainId,
       ethereum = Some provider ∧ eth_chainId provider = resolved chainId ∧
       chainId ≠ SEI_CHAIN_ID_HEX) ∧
  ("wallet_addEthereumChain" ∈ requests (connectToSei ethereum) →
     ∃ provider,
       ethereum = Some provider ∧
       wallet_switchEthereumChain provider = failed (Some 4902%Z)) ∧
  (alerted (connectToSei ethereum) = true ↔ ethereum = None) ∧
  requests (checkIfWalletConnected ethereum) ⊆ ["eth_accounts"] ∧
  alerted (checkIfWalletConnected ethereum) = false.
Proof.
  split; [|split; [|split; [|split; [|split]]]].
  - intros account. unfold connectToSei.
    destruct ethereum as [provider|]; [|done].
    destruct (eth_requestAccounts provider) as [accounts|] eqn:Haccounts; [|done].
    destruct (eth_chainId provider) as [chainId|] eqn:Hchain; [|done].
    case_bool_decide as Hsei.
    + destruct (wallet_switchEthereumChain provider) as [[]|code] eqn:Hswitch.
      { intros Hacc. exists provider, accounts.
        split; [reflexivity|]. split; [exact Haccounts|]. split; [exact Hacc|]. right. by left. }
      case_bool_decide as Hcode; [|done]. subst code.
      destruct (wallet_addEthereumChain provider) as [[]|] eqn:Hadd; [|done].
      intros Hacc. exists provider, accounts.
      split; [reflexivity|]. split; [exact Haccounts|]. split; [exact Hacc|]. right. right. by split.
    + subst chainId.
      intros Hacc. exists provider, accounts.
      split; [reflexivity|]. split; [exact Haccounts|]. split; [exact Hacc|]. by left.
  - unfold connectToSei.
    destruct ethereum as [provider|]; [|by intros ?%elem_of_nil].
    destruct (eth_requestAccounts provider); [|intros H; among_requests H].
    destruct (eth_chainId provider) as [chainId|] eqn:Hchain;
      [|intros H; among_requests H].
    case_bool_decide as Hsei; [|intros H; among_requests H].
    intros _. exists provider, chainId. by rewrite Hchain.
  - unfold connectToSei.
    destruct ethereum as [provider|]; [|by intros ?%elem_of_nil].
    destruct (eth_requestAccounts provider); [|intros H; among_requests H].
    destruct (eth_chainId provider) as [chainId|]; [|intros H; among_requests H].
    case_bool_decide as Hsei; [|intros H; among_requests H].
    destruct (wallet_switchEthereumChain provider) as [[]|code] eqn:Hswitch;
      [intros H; among_requests H|].
    case_bool_decide as Hcode; [|intros H; among_requests H].
    subst code. intros _. exists provider. by rewrite Hswitch.
  - unfold connectToSei. destruct ethereum as [provider|]; [|done].
    split; [|done].
    destruct (eth_requestAccounts provider); [|done].
    destruct (eth_chainId provider); [|done].
    case_bool_decide; [|done].
    destruct (wallet_switchEthereumChain provider); [done|].
    case_bool_decide; [|done]. by destruct (wallet_addEthereumChain provider).
  - unfold checkIfWalletConnected.
    destruct ethereum as [provider|]; [|by intros ? ?%elem_of_nil].
    destruct (eth_accounts provider); [|done].
    by destruct (_ >? _)%Z.
  - unfold checkIfWalletConnected.
    destruct ethereum as [provider|]; [|done].
    destruct (eth_accounts provider); [|done].
    by destruct (_ >? _)%Z.
Qed.

Lemma wallet_connects_only_on_sei_witness :
  returned (connectToSei (Some sampleWallet)) = Some "0xA11CE" ∧
  wallet_switchEthereumChain sampleWallet = failed (Some 4902%Z).
Proof.
  split; [reflexivity|].
  destruct (proj1 (proj2 (proj2 (wallet_connects_only_on_sei (Some sampleWallet)))))
    as (provider & [= <-] & Hswitch).
  - do 3 right. by left.
  - exact Hswitch.
Defined.

(** *** Cropping and the header *)

Section Cropping.
Variable atob : string → Settled string.

(** X26. A crop uses up its selection. With a selection and the image on
    screen, [handleApplyCrop] appends the file ["cropped-<clock>.png"]
    after the versions up to the cursor, shows it, and costs no credits;
    a second crop from the render that follows is declined with a
    message, whatever the canvas would give, and leaves the versions and
    the cursor as they are. *)
Theorem crop_uses_up_the_selection st selection url now file :
  completedCrop st = Some selection →
  dataURLtoFile atob url ("cropped-" +:+ toString now +:+ ".png") = fulfilled file →
  let st' := fire (λ r, handleApplyCrop atob r true (Some url) now) st in
  history st' = slice (history st) 0 (historyIndex st + 1) ++ [file] ∧
  currentImage st' = Some file ∧
  credits st' = credits st ∧
  ∀ image canvas later,
    let st'' := fire (λ r, handleApplyCrop atob r image canvas later) st' in
    history st'' = history st' ∧
    historyIndex st'' = historyIndex st' ∧
    error st'' = Some "Please select an area to crop.".
Proof.
  intros Hselection Hfile. cbn zeta.
  assert (fire (λ r, handleApplyCrop atob r true (Some url) now) st
          = addImageToHistory st file st) as ->.
  { unfold fire, handleApplyCrop. by rewrite Hselection, Hfile. }
  split; [reflexivity|].
  split; [by apply (appended_is_current st)|].
  split; [reflexivity|].
  intros image canvas later.
  assert (completedCrop (addImageToHistory st file st) = None) as Hused
    by reflexivity.
  unfold fire, handleApplyCrop. rewrite Hused. cbn beta iota.
  generalize (addImageToHistory st file st). intros appended.
  repeat split; reflexivity.
Qed.

End Cropping.

Lemma crop_uses_up_the_selection_witness :
  history (fire (λ r, handleApplyCrop (λ s, fulfilled s) r true
                        (Some sampleDataUrl) 17%Z) sampleSession)
  = [sample 0; sample 1; mkFile [81; 85; 74; 68]%Z "cropped-17.png" "image/png"] ∧
  error (fire (λ r, handleApplyCrop (λ s, fulfilled s) r true
                      (Some sampleDataUrl) 18%Z)
           (fire (λ r, handleApplyCrop (λ s, fulfilled s) r true
                         (Some sampleDataUrl) 17%Z) sampleSession))
  = Some "Please select an area to crop.".
Proof.
  destruct (crop_uses_up_the_selection (λ s, fulfilled s) sampleSession sampleCrop
              sampleDataUrl 17%Z
              (mkFile [81; 85; 74; 68]%Z "cropped-17.png" "image/png"))
    as (Hh & _ & _ & Hsecond).
  - vm_compute. reflexivity.
  - vm_compute. reflexivity.
  - split.
    + rewrite Hh. destruct sample_cells as (-> & -> & _). reflexivity.
    + exact (proj2 (proj2 (Hsecond true (Some sampleDataUrl) 18%Z))).
Defined.

(** X27. The header leaves the editor behind. From a state that keeps the
    cursor invariant, [onBackToHome] and [onNavClick] both end with no
    versions and the cursor at -1, the first on the start view and the
    second on the view that was asked for. Neither touches the credits,
    and neither clears the crop selection, which [handleUploadNew] leaves
    in its cells. *)
Theorem header_leaves_the_editor st viewName :
  cursor_inv st →
  (history (fire onBackToHome st) = [] ∧
   historyIndex (fire onBackToHome st) = (-1)%Z ∧
   view (fire onBackToHome st) = View_start ∧
   credits (fire onBackToHome st) = credits st ∧
   completedCrop (fire onBackToHome st) = completedCrop st) ∧
  (history (onNavClick viewName st) = [] ∧
   historyIndex (onNavClick viewName st) = (-1)%Z ∧
   view (onNavClick viewName st) = viewName ∧
   credits (onNavClick viewName st) = credits st ∧
   completedCrop (onNavClick viewName st) = completedCrop st).
Proof.
  intros Hinv. split; [|repeat split; reflexivity].
  unfold fire, onBackToHome.
  destruct (currentImage st) as [image|] eqn:Himage;
    [repeat split; reflexivity|].
  destruct Hinv as [[Hempty Hcursor] | [Hne Hin]].
  - repeat split; try reflexivity; [exact Hempty | exact Hcursor].
  - exfalso. unfold currentImage, index in Himage.
    destruct (Z.ltb_spec (historyIndex st) 0) as [|_]; [lia|].
    apply lookup_ge_None in Himage. lia.
Qed.

Lemma header_leaves_the_editor_witness :
  history (fire onBackToHome sampleSession) = [] ∧
  view (onNavClick View_pricing sampleSession) = View_pricing.
Proof.
  assert (cursor_inv sampleSession) as Hinv.
  { unfold cursor_inv. destruct sample_cells as (-> & -> & _).
    right. split; [discriminate | cbn; lia]. }
  destruct (header_leaves_the_editor sampleSession View_pricing Hinv)
    as ((Hh & _) & (_ & _ & Hv & _)).
  split; [exact Hh | exact Hv].
Defined.

(** *** The four image calls *)

Lemma imageCall_context context context' readAsDataURL reply url :
  imageCall context readAsDataURL reply = fulfilled url →
  imageCall context' readAsDataURL reply = fulfilled url.
Proof.
  unfold imageCall. destruct (fileToPart readAsDataURL); [|done].
  destruct reply as [response|]; [|done].
  destruct (blocked response) eqn:Hblocked.
  { destruct (handleApiResponse_blocked response context Hblocked) as [? ->].
    done. }
  destruct (imageOf response) as [image|] eqn:Himage.
  - by rewrite !(handleApiResponse_image _ _ image Hblocked Himage).
  - destruct (handleApiResponse_no_image response context Hblocked Himage)
      as [? ->].
    done.
Qed.

(** X28. The four calls that return one image succeed together: on the
    same file and the same reply of the model, [generateEditedImage],
    [generateFilteredImage], [generateAdjustedImage] and
    [generateInfographicImage] give the same data URL or all fail. When
    they succeed the file was read, the model answered and the prompt was
    not blocked; a file that cannot be read fails the call with the
    reader's error, whatever the model would answer. *)
Theorem image_calls_succeed_together readAsDataURL reply :
  (∀ url,
     (generateEditedImage readAsDataURL reply = fulfilled url ↔
      generateFilteredImage readAsDataURL reply = fulfilled url) ∧
     (generateEditedImage readAsDataURL reply = fulfilled url ↔
      generateAdjustedImage readAsDataURL reply = fulfilled url) ∧
     (generateEditedImage readAsDataURL reply = fulfilled url ↔
      generateInfographicImage readAsDataURL reply = fulfilled url) ∧
     (generateEditedImage readAsDataURL reply = fulfilled url →
      ∃ part response image,
        fileToPart readAsDataURL = fulfilled part ∧
        reply = fulfilled response ∧
        blocked response = false ∧ imageOf response = Some image)) ∧
  (∀ e,
     fileToPart readAsDataURL = rejected e →
     generateEditedImage readAsDataURL reply = rejected e ∧
     generateFilteredImage readAsDataURL reply = rejected e ∧
     generateAdjustedImage readAsDataURL reply = rejected e ∧
     generateInfographicImage readAsDataURL reply = rejected e).
Proof.
  unfold generateEditedImage, generateFilteredImage, generateAdjustedImage,
    generateInfographicImage.
  split.
  - intros url.
    split; [split; apply imageCall_context|].
    split; [split; apply imageCall_context|].
    split; [split; apply imageCall_context|].
    unfold imageCall.
    destruct (fileToPart readAsDataURL) as [part|]; [|done].
    destruct reply as [response|]; [|done].
    destruct (blocked response) eqn:Hblocked.
    { destruct (handleApiResponse_blocked response "edit" Hblocked) as [? ->].
      done. }
    destruct (imageOf response) as [image|] eqn:Himage; [by eauto 8|].
    destruct (handleApiResponse_no_image response "edit" Hblocked Himage)
      as [? ->].
    done.
  - intros e He. unfold imageCall. by rewrite He.
Qed.
